(** * OCR captcha recogniser: a shallow embedding of the Python sources

    The development follows the repository file by file:
    - [src/data/data.py]: [extract_data] (the alphabet codec), [collate_fn],
      [create_loaders];
    - [src/model.py]: the class [OCR] ([train], [evaluations],
      [_evaluations_cer], [save], [load]);
    - [main.py] and [src/predict.py]: the two entry points.

    Python dictionaries are finite maps ([gmap]), Python exceptions are the
    [Raise] branch of a small error monad, and mutable attributes of the
    [OCR] object are fields of an explicit state record.  The calls into
    torch are described as far as the code depends on them: the integer
    tensors of a batch, the constructor of a [DataLoader], and the two
    [load_state_dict]. *)

From Stdlib Require Import QArith.
From stdpp Require Import gmap list sorting strings.

Set Default Proof Using "Type".

(** ** Python values *)

(** A Python [str] is a sequence of Unicode code points.  Iterating over a
    [str] yields its characters as [str]s of length one. *)
Definition code_point := N.
Definition str := list code_point.

(** Literals of the source, written as Rocq strings. *)
Fixpoint py (s : string) : str :=
  match s with
  | EmptyString => []
  | String a s' => Ascii.N_of_ascii a :: py s'
  end.

(** Python's [<=] on [str]: lexicographic on code points. *)
Fixpoint str_leb (x y : str) : bool :=
  match x, y with
  | [], _ => true
  | _ :: _, [] => false
  | a :: x', b :: y' =>
      match N.compare a b with
      | Lt => true
      | Gt => false
      | Eq => str_leb x' y'
      end
  end.

Definition str_le (x y : str) : Prop := str_leb x y = true.

#[global] Instance str_le_dec : RelDecision str_le.
Proof. intros x y. unfold str_le. apply _. Defined.

(** ** Exceptions *)

Inductive exn :=
| KeyError (key : str)
| AttributeError (obj attr : string)
| RuntimeError (msg : string)
| ValueError (msg : string)
| FileNotFoundError (path : string)
| ModuleNotFoundError (name : string)
| TypeError (msg : string)
| UnknownIndexError (ind : nat)
| BatchInvariantError.

Inductive result (A : Type) :=
| Ok (a : A)
| Raise (e : exn).
Arguments Ok {A} a.
Arguments Raise {A} e.

Definition rbind {A B} (m : result A) (k : A → result B) : result B :=
  match m with
  | Ok a => k a
  | Raise e => Raise e
  end.

Notation "'do' x <- m ; k" := (rbind m (λ x, k))
  (at level 10, x name, m at level 100, k at level 200).

(** [[f x for x in l]] where [f] may raise: the first exception wins. *)
Fixpoint mapR {A B} (f : A → result B) (l : list A) : result (list B) :=
  match l with
  | [] => Ok []
  | x :: l' => do y <- f x; do ys <- mapR f l'; Ok (y :: ys)
  end.

(** [d[key]] on a dictionary keyed by tokens. *)
Definition getitem {V} (d : gmap str V) (key : str) : result V :=
  match d !! key with
  | Some v => Ok v
  | None => Raise (KeyError key)
  end.

(** ** src/data/data.py *)

(** *** [extract_data] *)

(** [[c for c in x]] *)
Definition chars_of (x : str) : list str := (λ c, [c]) <$> x.

(** [''.join(tokens)] *)
Definition join (tokens : list str) : str := concat tokens.

(** The two nested [for] loops filling the set [targets_flat]. *)
Definition collect_tokens (targets : list (list str)) : gset str :=
  foldl (λ acc clist, foldl (λ acc c, acc ∪ {[c]}) acc clist) ∅ targets.

(** [sorted(list(s))]: the order in which the set is listed does not matter
    to the result up to permutation, [sorted] is a stable merge sort. *)
Definition sorted (l : list str) : list str := merge_sort str_le l.

Definition enumerate {A} (l : list A) : list (nat * A) := imap pair l.

(** [{target: ind for ind, target in enumerate(targets_flat)}]: a later
    entry overwrites an earlier one with the same key. *)
Definition build_token2ind (targets_flat : list str) : gmap str nat :=
  foldl (λ d it, <[it.2 := it.1]> d) ∅ (enumerate targets_flat).

(** [{ind: target for ind, target in enumerate(targets_flat)}] *)
Definition build_ind2token (targets_flat : list str) : gmap nat str :=
  foldl (λ d it, <[it.1 := it.2]> d) ∅ (enumerate targets_flat).

Definition BLANK : str := py "<BLANK>".

(** The seven values returned by [extract_data]. *)
Record extracted := {
  paths_to_images : list str;
  targets_enc : list (list nat);
  token2ind : gmap str nat;
  ind2token : gmap nat str;
  blank_token : str;
  blank_ind : nat;
  num_classes : nat
}.

(** The annotation file, once read by [pd.read_csv], is a table of rows
    (image path, label). *)
Definition extract_data (annotations : list (str * str)) (blank_token : str)
  : result extracted :=
  let paths_to_images := annotations.*1 in
  let labels := annotations.*2 in
  let targets := chars_of <$> labels in
  let targets_flat := blank_token :: sorted (elements (collect_tokens targets)) in
  let token2ind := build_token2ind targets_flat in
  let ind2token := build_ind2token targets_flat in
  do targets_enc <- mapR (mapR (getitem token2ind)) targets;
  do blank_ind <- getitem token2ind blank_token;
  Ok {| paths_to_images := paths_to_images;
        targets_enc := targets_enc;
        token2ind := token2ind;
        ind2token := ind2token;
        blank_token := blank_token;
        blank_ind := blank_ind;
        num_classes := size token2ind |}.

(** *** [collate_fn] *)

(** An image tensor, as far as batching is concerned, is its shape. *)
Record image := { shape : list nat }.

(** One element of [CaptchaDataset]: the key ["seqs"] is present only when
    the dataset was built with targets. *)
Record item := {
  item_image : image;
  item_img_name : str;
  item_seqs : option (list nat)
}.

(** A batch as the methods of [OCR] read it, its two tensors of labels and
    lengths turned into lists by [.tolist()]. *)
Record batch := {
  images : list image;
  seq : list nat;
  seq_len : list nat;
  img_name : list str
}.

(** [torch.Tensor(l).int()] on a list of integers: the values are stored as
    float32, rounded to the nearest value of 24 significant bits, ties to
    the even one, and then cast to int32; a value the cast cannot hold
    comes out as -2^31, as the conversion instruction of x86 gives it. *)
Definition round_float32 (z : Z) : Z :=
  let a := Z.abs z in
  if (a <? 2 ^ 24)%Z then z
  else
    let e := (Z.log2 a - 23)%Z in
    let q := (a / 2 ^ e)%Z in
    let r := (a mod 2 ^ e)%Z in
    let half := (2 ^ (e - 1))%Z in
    let q' := if (half <? r)%Z || ((r =? half)%Z && Z.odd q)
              then (q + 1)%Z else q in
    (Z.sgn z * (q' * 2 ^ e))%Z.

Definition int32_of_float (f : Z) : Z :=
  if (- 2 ^ 31 <=? f)%Z && (f <? 2 ^ 31)%Z then f else (- 2 ^ 31)%Z.

Definition tensor_int (z : Z) : Z := int32_of_float (round_float32 z).

Definition int_tensor (l : list nat) : list Z :=
  (λ v, tensor_int (Z.of_nat v)) <$> l.

(** The sum of a tensor of integers. *)
Definition sumZ (l : list Z) : Z := foldr Z.add 0%Z l.

(** The batch [collate_fn] returns: ["seq"] and ["seq_len"] are int32
    tensors. *)
Record tensor_batch := {
  tb_images : list image;
  tb_seq : list Z;
  tb_seq_len : list Z;
  tb_img_name : list str
}.

(** [torch.stack] needs at least one tensor and equal shapes. *)
Definition torch_stack (imgs : list image) : result (list image) :=
  match imgs with
  | [] => Raise (RuntimeError "stack expects a non-empty TensorList")
  | i :: rest =>
      if forallb (λ j, bool_decide (shape j = shape i)) rest
      then Ok imgs
      else Raise (RuntimeError "stack expects each tensor to be equal size")
  end.

(** The accumulators [images, seqs, seq_lens, images_name] of the loop. *)
Record collate_acc := {
  acc_images : list image;
  acc_seqs : list nat;
  acc_seq_lens : list nat;
  acc_images_name : list str
}.

Definition collate_step (acc : collate_acc) (it : item) : result collate_acc :=
  let images := acc_images acc ++ [item_image it] in
  let images_name := acc_images_name acc ++ [item_img_name it] in
  match item_seqs it with
  | None => Raise (KeyError (py "seqs"))
  | Some s =>
      Ok {| acc_images := images;
            acc_seqs := acc_seqs acc ++ s;
            acc_seq_lens := acc_seq_lens acc ++ [length s];
            acc_images_name := images_name |}
  end.

Fixpoint collate_loop (acc : collate_acc) (b : list item) : result collate_acc :=
  match b with
  | [] => Ok acc
  | it :: b' => do acc' <- collate_step acc it; collate_loop acc' b'
  end.

Definition collate_fn (b : list item) : result tensor_batch :=
  do acc <- collate_loop {| acc_images := []; acc_seqs := [];
                            acc_seq_lens := []; acc_images_name := [] |} b;
  do images <- torch_stack (acc_images acc);
  Ok {| tb_images := images;
        tb_seq := int_tensor (acc_seqs acc);
        tb_seq_len := int_tensor (acc_seq_lens acc);
        tb_img_name := acc_images_name acc |}.

(** ** src/utils

    [src/model.py] imports [decode_batch_outputs], [encoding] and
    [split_text] from [src.utils], which is not among the sources. *)

Module utils.

(** Modelled from the spec: [encoding] of [src.utils] is missing.  It is
    the codec's [decode]: the inverse mapping per index, failing with
    [UnknownIndexError] on an index that is not in the mapping. *)
Definition encoding (indices : list nat) (ind2token : gmap nat str)
  : result (list str) :=
  mapR (λ i, match ind2token !! i with
             | Some t => Ok t
             | None => Raise (UnknownIndexError i)
             end) indices.

(** Python's slice [text[lo:hi]] for [0 <= lo]. *)
Definition slice {A} (l : list A) (lo hi : nat) : list A :=
  take (hi - lo) (drop lo l).

(** Modelled from the spec: [split_text] of [src.utils] is missing.  A
    running offset; for each length in order the slice from offset to
    offset+length is appended and the offset advanced; the final offset
    must equal the length of the flat sequence. *)
Fixpoint split_from {A} (flat : list A) (offset : nat) (lengths : list nat)
  : result (list (list A)) :=
  match lengths with
  | [] => if bool_decide (offset = length flat) then Ok []
          else Raise BatchInvariantError
  | n :: lengths' =>
      do rest <- split_from flat (offset + n) lengths';
      Ok (slice flat offset (offset + n) :: rest)
  end.

(** Modelled from the spec: [split_text] of [src.utils], which is missing,
    starts the running offset at 0. *)
Definition split_text {A} (flat : list A) (lengths : list nat)
  : result (list (list A)) :=
  split_from flat 0 lengths.

(** Modelled from the spec: the greedy rule of [decode_batch_outputs] of
    [src.utils], which is missing.  Scan left to right, keep a symbol if it
    differs from the previous raw symbol ... *)
Fixpoint collapse_repeats (prev : option nat) (raw : list nat) : list nat :=
  match raw with
  | [] => []
  | c :: raw' =>
      if bool_decide (prev = Some c) then collapse_repeats (Some c) raw'
      else c :: collapse_repeats (Some c) raw'
  end.

(** Modelled from the spec: the second half of the greedy rule of the
    missing [decode_batch_outputs]: ... then drop all kept symbols equal
    to blank. *)
Definition greedy_decode (blank_ind : nat) (raw : list nat) : list nat :=
  filter (λ c, c ≠ blank_ind) (collapse_repeats None raw).

(** Modelled from the spec: [decode_batch_outputs] of [src.utils] is
    missing.  The argmax over the vocabulary axis is taken by the tensor
    engine; [output] holds, for each sample of the batch, its raw index
    sequence over the time axis.  The result pairs the decoded texts with
    the kept index sequences. *)
Definition decode_batch_outputs (output : list (list nat))
    (ind2token : gmap nat str) (blank_ind : nat) (blank_token : str)
  : result (list str * list (list nat)) :=
  let batch_predictions := greedy_decode blank_ind <$> output in
  do labels <- mapR (λ kept, do tokens <- encoding kept ind2token;
                             Ok (join tokens)) batch_predictions;
  Ok (labels, batch_predictions).

End utils.

(** ** Floating-point values

    A Python [float] or the value of a 0-d float tensor: a rational (the
    rounding of finite values is not modelled), an infinity or a NaN. *)
Inductive pyfloat :=
| Finite (q : Q)
| PInf
| NInf
| NaN.

(** [a > b] as IEEE 754 has it: false whenever a NaN is involved. *)
Definition float_gt (a b : pyfloat) : bool :=
  match a, b with
  | NaN, _ | _, NaN => false
  | _, PInf => false
  | PInf, _ => true
  | NInf, _ => false
  | Finite _, NInf => true
  | Finite x, Finite y => if Qlt_le_dec y x then true else false
  end.

Definition float_lt (a b : pyfloat) : bool := float_gt b a.

(** [errors / total] on two float tensors holding natural numbers. *)
Definition tensor_div (errors total : nat) : pyfloat :=
  match total, errors with
  | O, O => NaN
  | O, S _ => PInf
  | S _, _ => Finite (Qred (Z.of_nat errors # Pos.of_nat total))
  end.

(** ** torchmetrics.CharErrorRate

    [src/model.py] scores with [CharErrorRate] of the torchmetrics library:
    [update(preds, target)] adds, for each pair of the two sequences, the
    edit distance to [errors] and the length of the target to [total];
    [compute] returns [errors / total]. *)
Module torchmetrics.

(** The recurrence of the library's table [dp]: [dp[i][j]] compares the
    last characters of the prefixes of lengths [i] and [j]. *)
Fixpoint lev (x : str) : str → nat :=
  fix lev_x (y : str) : nat :=
    match x, y with
    | [], _ => length y
    | _, [] => length x
    | a :: x', b :: y' =>
        if bool_decide (a = b) then lev x' y'
        else S (Nat.min (Nat.min (lev x' y) (lev_x y')) (lev x' y'))
    end.

Definition _edit_distance (prediction_tokens reference_tokens : str) : nat :=
  lev (reverse prediction_tokens) (reverse reference_tokens).

(** The loop of [_cer_update] over [zip(preds, target)]. *)
Fixpoint _cer_update (preds target : list str) : nat * nat :=
  match preds, target with
  | pred :: preds', tgt :: target' =>
      let '(errors, total) := _cer_update preds' target' in
      (_edit_distance pred tgt + errors, length tgt + total)
  | _, _ => (0, 0)
  end.

Definition _cer_compute (errors total : nat) : pyfloat :=
  tensor_div errors total.

(** An argument of the metric is a string or a list of strings; a string
    stands for the list holding it. *)
Inductive text :=
| Str (s : str)
| Strs (l : list str).

Definition as_list (t : text) : list str :=
  match t with
  | Str s => [s]
  | Strs l => l
  end.

Definition CharErrorRate (preds target : text) : pyfloat :=
  let '(errors, total) := _cer_update (as_list preds) (as_list target) in
  _cer_compute errors total.

End torchmetrics.

(** ** src/model.py *)

(** A tensor, as far as the code looks at it: its shape and its values. *)
Record tensor := { t_shape : list nat; t_values : list Q }.

(** [Module.state_dict()]: the parameters and buffers of the network by
    name, in the order of the network; a name occurs once. *)
Abbreviation state_dict := (list (string * tensor)).

(** [sd[key]], [None] when [key not in sd]. *)
Fixpoint state_lookup (key : string) (sd : state_dict) : option tensor :=
  match sd with
  | [] => None
  | (k, v) :: sd' => if String.eqb k key then Some v else state_lookup key sd'
  end.

(** One parameter of the network in [Module.load_state_dict(given)]: the
    tensor stored under its name is copied into it when it has the shape
    of the parameter. *)
Definition copy_param (given : state_dict) (p : string * tensor)
  : string * tensor :=
  match state_lookup p.1 given with
  | Some q => if bool_decide (t_shape q = t_shape p.2) then (p.1, q) else p
  | None => p
  end.

(** No "missing key" and no "size mismatch" for this parameter. *)
Definition param_found (given : state_dict) (p : string * tensor) : bool :=
  match state_lookup p.1 given with
  | Some q => bool_decide (t_shape q = t_shape p.2)
  | None => false
  end.

(** No "unexpected key" for this name. *)
Definition key_expected (own : state_dict) (key : string) : bool :=
  bool_decide (is_Some (state_lookup key own)).

(** What the strict load accepts: no missing key, no size mismatch and no
    unexpected key. *)
Definition Module_accepts (own given : state_dict) : bool :=
  forallb (param_found given) own && forallb (key_expected own) given.*1.

(** [Module.load_state_dict(given)] of torch, with [strict=True] as
    [OCR.load] calls it, on the network whose state is [own]: the state of
    the network after the call and the [RuntimeError] it raises, if any.
    Every parameter that finds a tensor of its shape under its name takes
    it over; after that the call raises if a name of the network was
    missing, a shape differed or a name was not one of the network. *)
Definition Module_load_state_dict (own given : state_dict)
  : state_dict * option exn :=
  (copy_param given <$> own,
   if Module_accepts own given then None
   else Some (RuntimeError "Error(s) in loading state_dict for CNN_GRU")).

(** The names and shapes of a state, which is what two networks of one
    architecture and one number of classes have in common. *)
Definition layout (sd : state_dict) : list (string * list nat) :=
  (λ p, (p.1, t_shape p.2)) <$> sd.

(** One parameter group in [Optimizer.state_dict()]: its options (the
    learning rate and the like) and what the optimiser keeps for each of
    its parameters. *)
Record param_group := {
  group_options : list (string * Q);
  group_params : list (list tensor)
}.

Abbreviation optimizer_state := (list param_group).

(** How many parameters each group has. *)
Definition group_sizes (o : optimizer_state) : list nat :=
  (λ g, length (group_params g)) <$> o.

(** [Optimizer.load_state_dict(given)] of torch on an optimiser whose state
    is [own]: a [ValueError] unless there are as many groups, of as many
    parameters each; otherwise the state becomes the given one. *)
Definition Optimizer_load_state_dict (own given : optimizer_state)
  : result optimizer_state :=
  if bool_decide (length own = length given) then
    if bool_decide (group_sizes own = group_sizes given)
    then Ok given
    else Raise (ValueError "loaded state dict contains a parameter group that doesn't match the size of optimizer's group")
  else Raise (ValueError "loaded state dict has a different number of parameter groups").

(** The dictionary stored in a checkpoint file.  Each of its four keys has
    its own type of value; a key is in the dictionary when its field is
    [Some]. *)
Record checkpoint := {
  model_state_dict : option state_dict;
  optimizer_state_dic : option optimizer_state;
  epoch : option nat;
  loss : option pyfloat
}.

(** What a training epoch followed by a validation epoch leave behind: the
    updated parameters and optimiser state, and the two epoch losses. *)
Record epoch_pair := {
  new_model : state_dict;
  new_optimizer : optimizer_state;
  train_loss : pyfloat;
  eval_loss : pyfloat
}.

(** The name of a checkpoint file,
    [f"Epoch_{self._epoch}_loss_{self._eval_loss:.5f}.pt"], kept as the
    directory and the two values that are formatted into it. *)
Record ckpt_name := {
  name_dir : string;
  name_epoch : nat;
  name_loss : pyfloat
}.

(** The files written so far, in the order of the writes. *)
Definition filesystem := list (ckpt_name * checkpoint).

(** A value a method returns or prints. *)
Inductive pyval :=
| PNone
| PBool (b : bool)
| PInt (z : Z)
| PFloat (f : pyfloat)
| PPair (t p : str).

Module OCR.

Record t := {
  model : state_dict;
  _device : string;
  _epoch : nat;
  _eval_loss : pyfloat;
  _optimizer : optimizer_state;
  blank_token : str;
  blank_ind : nat;
  ind2token : gmap nat str;
  token2ind : gmap str nat
}.

(** [self._path_save_checkpoint]: [__init__] sets it and nothing assigns
    it afterwards. *)
Definition _path_save_checkpoint (self : t) : string := "./model/checkpoints/".

(** [__init__]: [fresh_model] and [fresh_optimizer] are the randomly
    initialised [CNN_GRU(num_classes)] and its Adam optimiser. *)
Definition __init__ (fresh_model : state_dict) (fresh_optimizer : optimizer_state)
    (blank_token : str) (blank_ind : nat) (ind2token : gmap nat str)
    (token2ind : gmap str nat) : t :=
  {| model := fresh_model;
     _device := "cpu";
     _epoch := 0;
     _eval_loss := PInf;
     _optimizer := fresh_optimizer;
     blank_token := blank_token;
     blank_ind := blank_ind;
     ind2token := ind2token;
     token2ind := token2ind |}.

Definition set_model (v : state_dict) (self : t) : t :=
  {| model := v; _device := _device self; _epoch := _epoch self;
     _eval_loss := _eval_loss self; _optimizer := _optimizer self;
     blank_token := blank_token self; blank_ind := blank_ind self;
     ind2token := ind2token self; token2ind := token2ind self |}.

Definition set_optimizer (v : optimizer_state) (self : t) : t :=
  {| model := model self; _device := _device self; _epoch := _epoch self;
     _eval_loss := _eval_loss self; _optimizer := v;
     blank_token := blank_token self; blank_ind := blank_ind self;
     ind2token := ind2token self; token2ind := token2ind self |}.

Definition set_epoch (v : nat) (self : t) : t :=
  {| model := model self; _device := _device self; _epoch := v;
     _eval_loss := _eval_loss self; _optimizer := _optimizer self;
     blank_token := blank_token self; blank_ind := blank_ind self;
     ind2token := ind2token self; token2ind := token2ind self |}.

Definition set_eval_loss (v : pyfloat) (self : t) : t :=
  {| model := model self; _device := _device self; _epoch := _epoch self;
     _eval_loss := v; _optimizer := _optimizer self;
     blank_token := blank_token self; blank_ind := blank_ind self;
     ind2token := ind2token self; token2ind := token2ind self |}.

(** [to] *)
Definition to (self : t) (device : string) : t :=
  {| model := model self; _device := device; _epoch := _epoch self;
     _eval_loss := _eval_loss self; _optimizer := _optimizer self;
     blank_token := blank_token self; blank_ind := blank_ind self;
     ind2token := ind2token self; token2ind := token2ind self |}.

(** [os.makedirs(os.path.split(path_to_save)[0], exist_ok=True)] on the
    directory part of the path: there is nothing to create for the empty
    path. *)
Definition makedirs (dir : string) : result unit :=
  match dir with
  | EmptyString => Raise (FileNotFoundError "")
  | String _ _ => Ok ()
  end.

(** [save]: the dictionary written to [path_to_save].  The file name in a
    [ckpt_name] has no separator in it, so the directory part of the path
    is empty exactly when [name_dir] is. *)
Definition save (self : t) (path_to_save : ckpt_name) (training : bool)
    (fs : filesystem) : result filesystem :=
  do _u <- makedirs (name_dir path_to_save);
  let state :=
    if training then
      {| model_state_dict := Some (model self);
         optimizer_state_dic := Some (_optimizer self);
         epoch := Some (_epoch self);
         loss := Some (_eval_loss self) |}
    else
      {| model_state_dict := Some (model self);
         optimizer_state_dic := None;
         epoch := None;
         loss := None |} in
  Ok (fs ++ [(path_to_save, state)]).

(** [checkpoint[key]] *)
Definition field {A} (key : string) (v : option A) : result A :=
  match v with
  | Some a => Ok a
  | None => Raise (KeyError (py key))
  end.

(** [load]: the checkpoint is what [torch.load] read from the file.  The
    object as the call leaves it, with the exception that ended the call,
    if one did: what was assigned before the exception stays assigned. *)
Definition load_run (self : t) (checkpoint : checkpoint) : t * option exn :=
  match (if bool_decide (is_Some (optimizer_state_dic checkpoint)) then
           do v <- field "optimizer_state_dic" (optimizer_state_dic checkpoint);
           do o <- Optimizer_load_state_dict (_optimizer self) v;
           Ok (set_optimizer o self)
         else Ok self) with
  | Raise e => (self, Some e)
  | Ok self =>
  match (if bool_decide (is_Some (epoch checkpoint)) then
           do v <- field "epoch" (epoch checkpoint);
           Ok (set_epoch v self)
         else Ok self) with
  | Raise e => (self, Some e)
  | Ok self =>
  match (if bool_decide (is_Some (epoch checkpoint)) then
           do v <- field "loss" (loss checkpoint);
           Ok (set_eval_loss v self)
         else Ok self) with
  | Raise e => (self, Some e)
  | Ok self =>
  match field "model_state_dict" (model_state_dict checkpoint) with
  | Raise e => (self, Some e)
  | Ok v =>
      let r := Module_load_state_dict (model self) v in
      (set_model r.1 self, r.2)
  end end end end.

(** [load] as a call that returns the object or raises. *)
Definition load (self : t) (checkpoint : checkpoint) : result t :=
  match load_run self checkpoint with
  | (self, None) => Ok self
  | (_, Some e) => Raise e
  end.

(** The body of the [for epoch in range(num_epochs)] loop of [train], from
    the two epochs to the checkpoint.  The progress report it prints is
    left out. *)
Definition train_epoch (save_checkpoint : bool) (st : t * filesystem)
    (ep : epoch_pair) : result (t * filesystem) :=
  let '(self, fs) := st in
  let self := set_optimizer (new_optimizer ep) (set_model (new_model ep) self) in
  let self := set_epoch (_epoch self + 1) self in
  if save_checkpoint && float_gt (_eval_loss self) (eval_loss ep) then
    let self := set_eval_loss (eval_loss ep) self in
    do fs <- save self {| name_dir := _path_save_checkpoint self;
                          name_epoch := _epoch self;
                          name_loss := _eval_loss self |} true fs;
    Ok (self, fs)
  else Ok (self, fs).

(** [train]: [epochs] lists what each of the [num_epochs] iterations
    computes. *)
Fixpoint train (self : t) (fs : filesystem) (epochs : list epoch_pair)
    (save_checkpoint : bool) : result (t * filesystem) :=
  match epochs with
  | [] => Ok (self, fs)
  | ep :: epochs' =>
      do st <- train_epoch save_checkpoint (self, fs) ep;
      train st.1 st.2 epochs' save_checkpoint
  end.

(** [_evaluations_cer]: the two arguments go to the metric in this order. *)
Definition _evaluations_cer (labels_true labels_pred : torchmetrics.text)
  : pyfloat :=
  torchmetrics.CharErrorRate labels_true labels_pred.

(** One iteration of the loop of [evaluations]: the pairs it prints.
    [forward] stands for the network followed by the argmax. *)
Definition evaluations_batch (self : t) (forward : list image → list (list nat))
    (b : batch) : result (list pyval) :=
  do tokens <- utils.encoding (seq b) (ind2token self);
  let decoded_batch_text := join tokens in
  do texts <- utils.split_text decoded_batch_text (seq_len b);
  let batch_outputs := forward (images b) in
  do r <- utils.decode_batch_outputs batch_outputs (ind2token self)
            (blank_ind self) (blank_token self);
  let batch_predictions_labels := r.1 in
  Ok (zip_with PPair texts batch_predictions_labels).

(** [evaluations]: the returned value and what was printed.  The function
    body ends after the loop. *)
Fixpoint evaluations_loop (self : t) (forward : list image → list (list nat))
    (test_loader : list batch) (stdout : list pyval) : result (list pyval) :=
  match test_loader with
  | [] => Ok stdout
  | b :: rest =>
      do printed <- evaluations_batch self forward b;
      evaluations_loop self forward rest (stdout ++ printed)
  end.

Definition evaluations (self : t) (forward : list image → list (list nat))
    (test_loader : list batch) (each_image : bool)
  : result (pyval * list pyval) :=
  do stdout <- evaluations_loop self forward test_loader [];
  Ok (PNone, stdout).

End OCR.

(** ** What the properties speak of *)

(** The checkpoint [train] writes after an improving epoch. *)
Definition improved_checkpoint (self : OCR.t) (ep : epoch_pair)
  : ckpt_name * checkpoint :=
  ({| name_dir := OCR._path_save_checkpoint self;
      name_epoch := OCR._epoch self + 1;
      name_loss := eval_loss ep |},
   {| model_state_dict := Some (new_model ep);
      optimizer_state_dic := Some (new_optimizer ep);
      epoch := Some (OCR._epoch self + 1);
      loss := Some (eval_loss ep) |}).

(** A batch [evaluations] goes through without an exception: its labels
    are indices of single characters of the alphabet, its lengths add up to
    its flat label sequence, and what the network predicts on it, blanks
    apart, are indices of the alphabet. *)
Definition wf_batch (self : OCR.t) (forward : list image → list (list nat))
    (b : batch) : Prop :=
  (∀ i, i ∈ seq b → ∃ c, OCR.ind2token self !! i = Some [c])
  ∧ sum_list (seq_len b) = length (seq b)
  ∧ (∀ raw i, raw ∈ forward (images b) → i ∈ raw → i ≠ OCR.blank_ind self →
       is_Some (OCR.ind2token self !! i)).

(** What [print] shows for a pair of a true and a predicted text. *)
Definition is_pair (v : pyval) : Prop := ∃ t p, v = PPair t p.

(** A small alphabet, a model on it and a loader of one batch, used to try
    the definitions out. *)
Definition example_alphabet : list str := [BLANK; py "a"; py "b"].

Definition example_OCR : OCR.t :=
  OCR.__init__ [] [] BLANK 0 (build_ind2token example_alphabet)
    (build_token2ind example_alphabet).

Definition example_forward (imgs : list image) : list (list nat) :=
  (λ _, [0; 1; 1; 0; 2]) <$> imgs.

Definition example_batch : batch :=
  {| images := [ {| shape := [1; 50; 200] |}; {| shape := [1; 50; 200] |} ];
     seq := [1; 2; 2];
     seq_len := [2; 1];
     img_name := [py "1.png"; py "2.png"] |}.

(** The scorer as the specification words it, to compare with
    [OCR._evaluations_cer]: the edit distance divided by
    max(1, length of the true string). *)
Definition score_spec (true_label predicted : str) : pyfloat :=
  Finite (Qred (Z.of_nat (torchmetrics._edit_distance predicted true_label)
                # Pos.of_nat (Nat.max 1 (length true_label)))).

(** ** Calls

    Python binds the arguments of a call to the parameters of the callee:
    positional arguments from the left, keyword arguments by name, defaults
    for what is left. *)

Inductive arg :=
| ANone
| ABool (b : bool)
| AInt (z : Z)
| AFloat (q : Q)
| APaths (l : list str)
| ALabels (l : list (list nat))
| ATransform (steps : list string).

(** A parameter and its default, if it has one. *)
Definition signature := list (string * option arg).

(** What a call of [create_loaders] raises: a [TypeError] when the
    arguments do not bind to the parameters, or the [ValueError] of a
    [DataLoader] that is given a batch size it does not take. *)
Inductive call_error :=
| TooManyPositional
| MultipleValues (name : string)
| UnexpectedKeyword (name : string)
| MissingArgument (name : string)
| BatchSizeNotPositive (batch_size : arg).

(** The parameters bound so far, in the order of binding; a name is bound
    at most once. *)
Definition bindings := list (string * arg).

Fixpoint bound (name : string) (env : bindings) : option arg :=
  match env with
  | [] => None
  | (n, a) :: env' => if String.eqb n name then Some a else bound name env'
  end.

Definition has_param (sig : signature) (name : string) : bool :=
  existsb (String.eqb name) sig.*1.

Fixpoint bind_positional (sig : signature) (positional : list arg)
  : call_error + bindings :=
  match positional, sig with
  | [], _ => inr []
  | _ :: _, [] => inl TooManyPositional
  | a :: positional', (name, _) :: sig' =>
      match bind_positional sig' positional' with
      | inl e => inl e
      | inr env => inr ((name, a) :: env)
      end
  end.

Fixpoint bind_keywords (sig : signature) (keywords : list (string * arg))
    (env : bindings) : call_error + bindings :=
  match keywords with
  | [] => inr env
  | (name, a) :: keywords' =>
      if has_param sig name then
        match bound name env with
        | Some _ => inl (MultipleValues name)
        | None => bind_keywords sig keywords' (env ++ [(name, a)])
        end
      else inl (UnexpectedKeyword name)
  end.

Fixpoint bind_defaults (sig : signature) (env : bindings)
  : call_error + bindings :=
  match sig with
  | [] => inr env
  | (name, default) :: sig' =>
      match bound name env, default with
      | Some _, _ => bind_defaults sig' env
      | None, Some d => bind_defaults sig' (env ++ [(name, d)])
      | None, None => inl (MissingArgument name)
      end
  end.

Definition bind_args (sig : signature) (positional : list arg)
    (keywords : list (string * arg)) : call_error + bindings :=
  match bind_positional sig positional with
  | inl e => inl e
  | inr env =>
      match bind_keywords sig keywords env with
      | inl e => inl e
      | inr env => bind_defaults sig env
      end
  end.

(** Truth value of an argument in an [if]. *)
Definition truthy (a : arg) : bool :=
  match a with
  | ANone => false
  | ABool b => b
  | AInt z => negb (z =? 0)%Z
  | AFloat q => negb (Qeq_bool q 0)
  | APaths l => negb (bool_decide (l = []))
  | ALabels l => negb (bool_decide (l = []))
  | ATransform _ => true
  end.

(** *** [create_loaders] of [src/data/data.py] *)

Definition create_loaders_sig : signature :=
  [("paths_to_images", None);
   ("labels", Some ANone);
   ("transform", Some ANone);
   ("split", Some (ABool false));
   ("batch_size", Some (AInt 16%Z));
   ("test_size", Some (AFloat (2 # 10)))].

Record CaptchaDataset := {
  ds_paths_to_images : arg;
  ds_targets : arg;
  ds_transform : arg
}.

Inductive collate := Collate_fn | Collate_fn_predict.

Record DataLoader := {
  dl_dataset : CaptchaDataset;
  dl_batch_size : arg;
  dl_shuffle : bool;
  dl_collate_fn : collate
}.

(** What [create_loaders] returns: two loaders when it splits, one
    otherwise. *)
Inductive loaders :=
| TrainTest (train_loader test_loader : DataLoader)
| Loader (loader : DataLoader).

Definition loaders_list (l : loaders) : list DataLoader :=
  match l with
  | TrainTest a b => [a; b]
  | Loader a => [a]
  end.

(** The four parts [train_test_split] cuts images and labels into. *)
Record split_result := {
  train_img : arg;
  test_img : arg;
  train_targets : arg;
  test_targets : arg
}.

(** [torch.utils.data.DataLoader(dataset, batch_size=..., shuffle=...,
    collate_fn=...)].  The batch sampler the constructor builds takes a
    positive [int] that is no [bool] for a batch size and raises
    [ValueError] on anything else; with [None] the loader does not batch
    and no batch sampler is built. *)
Definition new_DataLoader (dataset : CaptchaDataset) (batch_size : arg)
    (shuffle : bool) (c : collate) : call_error + DataLoader :=
  let loader := {| dl_dataset := dataset; dl_batch_size := batch_size;
                   dl_shuffle := shuffle; dl_collate_fn := c |} in
  match batch_size with
  | ANone => inr loader
  | AInt z => if (0 <? z)%Z then inr loader
              else inl (BatchSizeNotPositive batch_size)
  | _ => inl (BatchSizeNotPositive batch_size)
  end.

(** The body of [create_loaders] on bound parameters.  [train_test_split]
    is scikit-learn's, called with [test_size] and [random_state=7]; it
    stands for a call that returns, which it does with a train part that
    is not empty. *)
Definition create_loaders_body
    (train_test_split : arg → arg → arg → Z → split_result)
    (env : bindings) : call_error + loaders :=
  let param name := default ANone (bound name env) in
  if truthy (param "split") then
    let s := train_test_split (param "paths_to_images") (param "labels")
               (param "test_size") 7%Z in
    let train_dataset :=
      {| ds_paths_to_images := train_img s; ds_targets := train_targets s;
         ds_transform := param "transform" |} in
    let test_dataset :=
      {| ds_paths_to_images := test_img s; ds_targets := test_targets s;
         ds_transform := param "transform" |} in
    match new_DataLoader train_dataset (param "batch_size") true Collate_fn with
    | inl e => inl e
    | inr train_loader =>
        match new_DataLoader test_dataset (param "batch_size") false Collate_fn with
        | inl e => inl e
        | inr test_loader => inr (TrainTest train_loader test_loader)
        end
    end
  else
    let dataset :=
      {| ds_paths_to_images := param "paths_to_images";
         ds_targets := param "labels";
         ds_transform := param "transform" |} in
    match new_DataLoader dataset (param "batch_size") false Collate_fn_predict with
    | inl e => inl e
    | inr loader => inr (Loader loader)
    end.

Definition create_loaders
    (train_test_split : arg → arg → arg → Z → split_result)
    (positional : list arg) (keywords : list (string * arg))
  : call_error + loaders :=
  match bind_args create_loaders_sig positional keywords with
  | inl e => inl e
  | inr env => create_loaders_body train_test_split env
  end.

(** ** main.py *)




(** ** src/predict.py *)

(** The exception a failed call of [create_loaders] raises. *)
Definition raise_call_error (e : call_error) : exn :=
  match e with
  | TooManyPositional => TypeError "create_loaders() takes from 1 to 6 positional arguments"
  | MultipleValues name => TypeError ("create_loaders() got multiple values for argument " +:+ name)
  | UnexpectedKeyword name => TypeError ("create_loaders() got an unexpected keyword argument " +:+ name)
  | MissingArgument name => TypeError ("create_loaders() missing 1 required positional argument: " +:+ name)
  | BatchSizeNotPositive _ => ValueError "batch_size should be a positive integer value"
  end.

(** Attribute lookup on an instance of the class [OCR] of [src/model.py]:
    the attributes [__init__] sets, then the functions of the class body,
    then those of [object]. *)
Definition OCR_instance_dict : list string :=
  ["model"; "_device"; "_epoch"; "_eval_loss"; "_optimizer"; "_criterion";
   "_path_save_checkpoint"; "blank_token"; "blank_ind"; "ind2token";
   "token2ind"].

Definition OCR_class_dict : list string :=
  ["__init__"; "train"; "_train_epoch"; "_validation_epoch"; "to";
   "evaluations"; "_evaluations_cer"; "error_calculation_each_image";
   "save"; "load"].

Definition object_dict : list string :=
  ["__class__"; "__delattr__"; "__dir__"; "__doc__"; "__eq__"; "__format__";
   "__ge__"; "__getattribute__"; "__getstate__"; "__gt__"; "__hash__";
   "__init__"; "__init_subclass__"; "__le__"; "__lt__"; "__ne__"; "__new__";
   "__reduce__"; "__reduce_ex__"; "__repr__"; "__setattr__"; "__sizeof__";
   "__str__"; "__subclasshook__"; "__dict__"; "__module__"; "__weakref__"].

(** The class that the name [OCR] stands for in [predict.py].  Line 3,
    [from src.model.model import OCR], takes it from a module that is not
    among the sources; the pipeline is described for any class, by what it
    uses of one: its name, the attributes lookup finds on its instances,
    the constructor, and what the three methods do where they are found.
    [file] is what [torch.load] gives for the path handed to [load]. *)
Record OCR_class (obj : Type) := {
  cls_name : string;
  cls_attributes : list string;
  cls_new : str → nat → gmap nat str → gmap str nat → nat → result obj;
  cls_to : obj → string → result obj;
  cls_load : obj → result checkpoint → result obj;
  cls_predict : obj → loaders → string → result unit
}.
Arguments cls_name {obj} _.
Arguments cls_attributes {obj} _.
Arguments cls_new {obj} _ _ _ _ _ _.
Arguments cls_to {obj} _ _ _.
Arguments cls_load {obj} _ _ _.
Arguments cls_predict {obj} _ _ _ _.

(** [model.name(...)]: the attribute is looked up, then called. *)
Definition call_method {obj A} (OCR : OCR_class obj) (name : string)
    (body : result A) : result A :=
  if bool_decide (name ∈ cls_attributes OCR) then body
  else Raise (AttributeError (cls_name OCR) name).

(** The class [OCR] of [src/model.py], the only class of that name among
    the sources.  It has no function [predict]; the last field is what a
    call of one would come to. *)
Definition model_py_OCR (fresh_model : state_dict)
    (fresh_optimizer : optimizer_state) : OCR_class OCR.t :=
  {| cls_name := "OCR";
     cls_attributes := OCR_instance_dict ++ OCR_class_dict ++ object_dict;
     cls_new := λ blank_token blank_ind ind2token token2ind num_classes,
       Ok (OCR.__init__ fresh_model fresh_optimizer blank_token blank_ind
             ind2token token2ind);
     cls_to := λ self device, Ok (OCR.to self device);
     cls_load := λ self file, do checkpoint <- file; OCR.load self checkpoint;
     cls_predict := λ _ _ _, Raise (AttributeError "OCR" "predict") |}.

(** What the pipeline reads from its configuration and from disk. *)
Record predict_world := {
  create_annotations : bool;
  created_list : result unit;
  annotations : result (list str);
  trainer_params : result extracted;
  predict_batch_size : Z;
  img_size : string;
  output_dir : string;
  cuda_is_available : bool;
  stored_checkpoint : result checkpoint
}.

(** [predict_pipeline], with the class that [OCR] names. *)
Definition predict_pipeline {obj} (OCR : OCR_class obj)
    (train_test_split : arg → arg → arg → Z → split_result)
    (w : predict_world) : result unit :=
  do _u <- (if create_annotations w then created_list w else Ok ());
  do image_file_paths <- annotations w;
  do trainer_params <- trainer_params w;
  let transform := ATransform ["ToPILImage"; "Resize(" +:+ img_size w +:+ ")";
                               "ToTensor"] in
  do predict_loader <-
    match create_loaders train_test_split [APaths image_file_paths]
            [("transform", transform); ("split", ABool false);
             ("batch_size", AInt (predict_batch_size w))] with
    | inl e => Raise (raise_call_error e)
    | inr l => Ok l
    end;
  let device := if cuda_is_available w then "cuda:0" else "cpu" in
  do model <- cls_new OCR (blank_token trainer_params) (blank_ind trainer_params)
                (ind2token trainer_params) (token2ind trainer_params)
                (num_classes trainer_params);
  do model <- call_method OCR "to" (cls_to OCR model device);
  do model <- call_method OCR "load" (cls_load OCR model (stored_checkpoint w));
  call_method OCR "predict" (cls_predict OCR model predict_loader (output_dir w)).

(** The script [predict.py]: its import of [OCR], then the pipeline.
    [src_model_model] is the class [OCR] of the module [src.model.model],
    [None] where there is no such module, as among the sources.  There
    [src.model] is the file [model.py] and no package; the import runs
    that file first, which itself imports [src.utils], and raises for the
    first module that is not found; [src_utils] tells whether [src.utils]
    is there.  The other imports of the script are taken to resolve. *)
Definition predict_py {obj} (src_utils : bool)
    (src_model_model : option (OCR_class obj))
    (train_test_split : arg → arg → arg → Z → split_result)
    (w : predict_world) : result unit :=
  match src_model_model with
  | None => Raise (ModuleNotFoundError
                     (if src_utils then "src.model.model" else "src.utils"))
  | Some OCR => predict_pipeline OCR train_test_split w
  end.

(** A run of the prediction pipeline in which every file is there. *)
Definition example_split (paths labels test_size : arg) (random_state : Z)
  : split_result :=
  {| train_img := paths; test_img := paths;
     train_targets := labels; test_targets := labels |}.

Definition example_world : predict_world :=
  {| create_annotations := false;
     created_list := Ok ();
     annotations := Ok [py "1.png"; py "2.png"];
     trainer_params :=
       Ok {| paths_to_images := [];
             targets_enc := [];
             token2ind := build_token2ind example_alphabet;
             ind2token := build_ind2token example_alphabet;
             blank_token := BLANK;
             blank_ind := 0;
             num_classes := 3 |};
     predict_batch_size := 16;
     img_size := "(64, 224)";
     output_dir := "./results";
     cuda_is_available := false;
     stored_checkpoint :=
       Ok {| model_state_dict := Some []; optimizer_state_dic := None;
             epoch := None; loss := None |} |}.

(** ** More of src/data/data.py *)

(** *** [collate_fn_predict] *)

Record predict_batch := {
  pb_images : list image;
  pb_img_name : list str
}.

(** The loop appends the image and the name of every item. *)
Definition collate_predict_step (acc : list image * list str) (it : item)
  : list image * list str :=
  (acc.1 ++ [item_image it], acc.2 ++ [item_img_name it]).

Definition collate_fn_predict (b : list item) : result predict_batch :=
  let acc := foldl collate_predict_step ([], []) b in
  do images <- torch_stack acc.1;
  Ok {| pb_images := images; pb_img_name := acc.2 |}.

(** ** Runs of [train] *)

(** One checkpoint file was written before another in a run that keeps
    improving: its loss is greater and its epoch smaller. *)
Definition ckpt_before (x y : ckpt_name * checkpoint) : Prop :=
  float_gt (name_loss x.1) (name_loss y.1) = true
  ∧ name_epoch x.1 < name_epoch y.1.

(** The name of a checkpoint file tells what is stored in it. *)
Definition ckpt_consistent (x : ckpt_name * checkpoint) : Prop :=
  epoch x.2 = Some (name_epoch x.1)
  ∧ loss x.2 = Some (name_loss x.1)
  ∧ is_Some (model_state_dict x.2)
  ∧ is_Some (optimizer_state_dic x.2).

(** The dictionary [save] writes. *)
Definition saved_state (self : OCR.t) (training : bool) : checkpoint :=
  if training then
    {| model_state_dict := Some (OCR.model self);
       optimizer_state_dic := Some (OCR._optimizer self);
       epoch := Some (OCR._epoch self);
       loss := Some (OCR._eval_loss self) |}
  else
    {| model_state_dict := Some (OCR.model self);
       optimizer_state_dic := None;
       epoch := None;
       loss := None |}.

(** ** The shapes in [CNN_GRU]

    A tensor, as far as [forward] decides whether it goes through, is its
    shape.  The layers are PyTorch's: a window of size [kernel] moved by
    [stride] over an axis padded by [padding] on both sides leaves
    floor((size + 2 padding - kernel) / stride) + 1 positions. *)
Module CNN_GRU.

Definition window_out (size kernel stride padding : nat) : result nat :=
  if bool_decide (size + 2 * padding < kernel)
  then Raise (RuntimeError "Kernel size can't be greater than actual input size")
  else Ok ((size + 2 * padding - kernel) / stride + 1).

Definition Conv2d (in_channels out_channels kernel stride padding : nat)
    (x : list nat) : result (list nat) :=
  match x with
  | [bs; c; h; w] =>
      if bool_decide (c = in_channels) then
        do h' <- window_out h kernel stride padding;
        do w' <- window_out w kernel stride padding;
        Ok [bs; out_channels; h'; w']
      else Raise (RuntimeError "expected input to have in_channels channels")
  | _ => Raise (RuntimeError "Expected 4D input to conv2d")
  end.

(** In training mode the statistics need more than one value per channel. *)
Definition BatchNorm2d (num_features : nat) (training : bool) (x : list nat)
  : result (list nat) :=
  match x with
  | [bs; c; h; w] =>
      if bool_decide (c = num_features) then
        if training && bool_decide (bs * h * w = 1)
        then Raise (RuntimeError "Expected more than 1 value per channel when training")
        else Ok x
      else Raise (RuntimeError "running_mean should contain c elements")
  | _ => Raise (RuntimeError "expected 4D input")
  end.

Definition MaxPool2d (kernel stride padding : nat) (x : list nat)
  : result (list nat) :=
  match x with
  | [bs; c; h; w] =>
      do h' <- window_out h kernel stride padding;
      do w' <- window_out w kernel stride padding;
      Ok [bs; c; h'; w']
  | _ => Raise (RuntimeError "expected 4D input")
  end.

(** [self.conv_layers]; [Dropout] keeps the shape. *)
Definition conv_layers (training : bool) (x : list nat) : result (list nat) :=
  do x <- Conv2d 1 64 7 2 3 x;
  do x <- BatchNorm2d 64 training x;
  do x <- MaxPool2d 3 2 1 x;
  do x <- Conv2d 64 64 3 1 1 x;
  do x <- BatchNorm2d 64 training x;
  do x <- Conv2d 64 64 3 1 1 x;
  do x <- BatchNorm2d 64 training x;
  Ok x.

Definition Linear (in_features out_features : nat) (x : list nat)
  : result (list nat) :=
  match x with
  | [bs; t; f] =>
      if bool_decide (f = in_features) then Ok [bs; t; out_features]
      else Raise (RuntimeError "mat1 and mat2 shapes cannot be multiplied")
  | _ => Raise (RuntimeError "expected 3D input")
  end.

(** [nn.GRU(input_size, hidden_size, bidirectional=True, batch_first=True)] *)
Definition GRU (input_size hidden_size : nat) (x : list nat) : result (list nat) :=
  match x with
  | [bs; t; f] =>
      if bool_decide (f = input_size) then Ok [bs; t; 2 * hidden_size]
      else Raise (RuntimeError "input.size(-1) must be equal to input_size")
  | _ => Raise (RuntimeError "expected 3D input")
  end.

(** [forward]: the shape of what it returns for an input of shape [x]. *)
Definition forward (training : bool) (output_size : nat) (x : list nat)
  : result (list nat) :=
  match x with
  | [bs; _; _; _] =>
      do x <- conv_layers training x;
      match x with
      | [b; c; h; w] =>
          (* x.permute(0, 3, 1, 2) is [b; w; c; h]; x.view(bs, x.size(1), -1) *)
          if bool_decide (bs * w = 0)
          then Raise (RuntimeError "cannot reshape tensor of 0 elements")
          else
            do x <- Linear 832 536 [bs; w; c * h];
            do x <- GRU 536 64 x;
            do x <- Linear 128 output_size x;
            match x with
            | [b; t; f] => Ok [t; b; f]
            | _ => Raise (RuntimeError "permute")
            end
      | _ => Raise (RuntimeError "permute")
      end
  | _ => Raise (RuntimeError "not enough values to unpack")
  end.

End CNN_GRU.

(** ** The annotation tools of src/data/data.py *)

Module data.

(** [s.split(sep)] for a separator of one character. *)
Fixpoint split_char (sep : code_point) (s : str) : list str :=
  match s with
  | [] => [[]]
  | c :: s' =>
      if bool_decide (c = sep) then [] :: split_char sep s'
      else match split_char sep s' with
           | [] => [[c]]
           | piece :: pieces => (c :: piece) :: pieces
           end
  end.

Definition dot : code_point := 46%N.

(** [create_annotations]: [listdir] is what [os.listdir] lists,
    [path_join] is [os.path.join]; the result is the table written. *)
Definition create_annotations (path_join : str → str → str)
    (listdir : list str) (path_to_dataset : str) : list (str * str) :=
  foldl (λ paths_to_images file_name,
           if bool_decide (length (split_char dot file_name) = 2) then
             let decoding := default [] (split_char dot file_name !! 0) in
             paths_to_images ++ [(path_join path_to_dataset file_name, decoding)]
           else paths_to_images)
        [] listdir.

(** [augmentation_data].  A file it writes: its number [n] (the name is
    [n.jpg] in the new directory), the image it comes from, whether that
    image was turned by 180 degrees, and its target. *)
Record augmented := {
  aug_num : nat;
  aug_source : str;
  aug_rotated : bool;
  aug_target : str
}.

(** One turn of the loop.  [read_shape] gives height and width of the image
    [cv.imread] reads, or nothing when it cannot read it; [horizontal h w]
    is the test [h < w * 1.3]. *)
Definition augmentation_step (read_shape : str → option (nat * nat))
    (horizontal : nat → nat → bool) (st : nat * list augmented)
    (row : str * str) : result (nat * list augmented) :=
  let '(cur_num, rows) := st in
  match read_shape row.1 with
  | None => Raise (AttributeError "NoneType" "shape")
  | Some (h, w) =>
      if horizontal h w then
        Ok (cur_num + 1 + 1,
            rows ++ [ {| aug_num := cur_num; aug_source := row.1;
                         aug_rotated := false; aug_target := row.2 |};
                      {| aug_num := cur_num + 1; aug_source := row.1;
                         aug_rotated := true; aug_target := reverse row.2 |} ])
      else Ok (cur_num, rows)
  end.

Fixpoint augmentation_loop (read_shape : str → option (nat * nat))
    (horizontal : nat → nat → bool) (st : nat * list augmented)
    (annotations : list (str * str)) : result (nat * list augmented) :=
  match annotations with
  | [] => Ok st
  | row :: annotations' =>
      do st' <- augmentation_step read_shape horizontal st row;
      augmentation_loop read_shape horizontal st' annotations'
  end.

Definition augmentation_data (read_shape : str → option (nat * nat))
    (horizontal : nat → nat → bool) (annotations : list (str * str))
  : result (list augmented) :=
  do st <- augmentation_loop read_shape horizontal (1, []) annotations;
  Ok st.2.

(** The rows [augmentation_data] keeps: those whose image passes the
    test. *)
Definition kept (read_shape : str → option (nat * nat))
    (horizontal : nat → nat → bool) (row : str * str) : bool :=
  match read_shape row.1 with
  | Some (h, w) => horizontal h w
  | None => false
  end.

End data.

(** * Properties *)

Example extract_data_small :
  match extract_data [(py "a.png", py "cab"); (py "b.png", py "bd")] BLANK with
  | Ok e => targets_enc e = [[3; 1; 2]; [2; 4]] ∧ blank_ind e = 0 ∧ num_classes e = 5
  | Raise _ => False
  end.
Proof. vm_compute. done. Qed.

(** ** The error monad *)

Lemma mapR_Ok {A B} (f : A → result B) (l : list A) :
  (∀ x, x ∈ l → ∃ y, f x = Ok y) →
  ∃ ys, mapR f l = Ok ys ∧ Forall2 (λ x y, f x = Ok y) l ys.
Proof.
  induction l as [|x l IH]; intros Hall; simpl.
  - exists []. split; [done | constructor].
  - destruct (Hall x) as [y Hy]; [left |].
    destruct IH as (ys & Hys & HF).
    { intros z Hz. apply Hall. by right. }
    exists (y :: ys). rewrite Hy, Hys. simpl. split; [done | by constructor].
Qed.

Lemma mapR_inv {A B} (f : A → result B) (l : list A) (ys : list B) :
  mapR f l = Ok ys → Forall2 (λ x y, f x = Ok y) l ys.
Proof.
  revert ys. induction l as [|x l IH]; intros ys; simpl.
  - intros [= <-]. constructor.
  - destruct (f x) as [y|e] eqn:Hy; simpl; [|done].
    destruct (mapR f l) as [zs|e] eqn:Hzs; simpl; [|done].
    intros [= <-]. constructor; [done | by apply IH].
Qed.

(** ** The alphabet codec *)

Lemma join_chars_of (s : str) : join (chars_of s) = s.
Proof.
  unfold join, chars_of. induction s as [|c s IH]; simpl; [done | by f_equal].
Qed.

Lemma enumerate_snoc {A} (l : list A) (x : A) :
  enumerate (l ++ [x]) = enumerate l ++ [(length l, x)].
Proof.
  unfold enumerate. rewrite imap_app. simpl. by rewrite Nat.add_0_r.
Qed.

Lemma build_token2ind_snoc (l : list str) (x : str) :
  build_token2ind (l ++ [x]) = <[x := length l]> (build_token2ind l).
Proof. unfold build_token2ind. by rewrite enumerate_snoc, foldl_snoc. Qed.

Lemma build_ind2token_snoc (l : list str) (x : str) :
  build_ind2token (l ++ [x]) = <[length l := x]> (build_ind2token l).
Proof. unfold build_ind2token. by rewrite enumerate_snoc, foldl_snoc. Qed.

(** [ind2token] is the list [targets_flat] read as a dictionary. *)
Lemma build_ind2token_lookup (l : list str) (i : nat) :
  build_ind2token l !! i = l !! i.
Proof.
  induction l as [|x l IH] using rev_ind; [done |].
  rewrite build_ind2token_snoc.
  destruct (decide (i = length l)) as [->|Hne].
  - rewrite lookup_insert_eq. by rewrite list_lookup_middle.
  - rewrite lookup_insert_ne by done. rewrite IH.
    destruct (decide (i < length l)) as [Hlt|Hge].
    + by rewrite lookup_app_l.
    + rewrite !lookup_ge_None_2; [done | | lia].
      rewrite length_app. simpl. lia.
Qed.

(** Every index stored in [token2ind] points at its token. *)
Lemma build_token2ind_sound (l : list str) (t : str) (i : nat) :
  build_token2ind l !! t = Some i → l !! i = Some t.
Proof.
  induction l as [|x l IH] using rev_ind; [done |].
  rewrite build_token2ind_snoc.
  destruct (decide (x = t)) as [->|Hne].
  - rewrite lookup_insert_eq. intros [= <-]. by rewrite list_lookup_middle.
  - rewrite lookup_insert_ne by done. intros H%IH.
    by apply lookup_app_l_Some.
Qed.

(** Every token of [targets_flat] is a key of [token2ind]. *)
Lemma build_token2ind_complete (l : list str) (t : str) :
  t ∈ l → is_Some (build_token2ind l !! t).
Proof.
  induction l as [|x l IH] using rev_ind; [by intros ?%elem_of_nil |].
  rewrite build_token2ind_snoc. intros Hin.
  destruct (decide (x = t)) as [->|Hne].
  - rewrite lookup_insert_eq. eauto.
  - rewrite lookup_insert_ne by done. apply IH.
    apply elem_of_app in Hin as [Hin|Hin]; [done |].
    apply list_elem_of_singleton in Hin. congruence.
Qed.

(** The first token keeps index 0 unless it occurs again further on. *)
Lemma build_token2ind_head (b : str) (rest : list str) :
  b ∉ rest → build_token2ind (b :: rest) !! b = Some 0.
Proof.
  intros Hnotin.
  destruct (build_token2ind_complete (b :: rest) b) as [i Hi]; [left |].
  rewrite Hi. f_equal.
  apply build_token2ind_sound in Hi. destruct i as [|j]; [done |].
  simpl in Hi. exfalso. apply Hnotin. by eapply list_elem_of_lookup_2.
Qed.

Lemma elem_of_collect_inner (acc : gset str) (clist : list str) (t : str) :
  t ∈ foldl (λ acc c, acc ∪ {[c]}) acc clist ↔ t ∈ acc ∨ t ∈ clist.
Proof.
  revert acc. induction clist as [|c clist IH]; intros acc; simpl.
  - rewrite elem_of_nil. tauto.
  - rewrite IH, elem_of_union, elem_of_singleton, elem_of_cons. tauto.
Qed.

Lemma elem_of_collect_tokens (targets : list (list str)) (t : str) :
  t ∈ collect_tokens targets ↔ ∃ clist, clist ∈ targets ∧ t ∈ clist.
Proof.
  unfold collect_tokens.
  assert (∀ acc : gset str,
    t ∈ foldl (λ acc clist, foldl (λ acc c, acc ∪ {[c]}) acc clist) acc targets
    ↔ t ∈ acc ∨ ∃ clist, clist ∈ targets ∧ t ∈ clist) as Hgen.
  { induction targets as [|cl targets IH]; intros acc; simpl.
    - split; [by left |]. intros [?|(? & ?%elem_of_nil & _)]; done.
    - rewrite IH, elem_of_collect_inner. split.
      + intros [[?|?]|(cl' & ? & ?)]; [by left | right | right].
        * exists cl. split; [left | done].
        * exists cl'. split; [by right | done].
      + intros [?|(cl' & [->|?]%elem_of_cons & ?)]; [by left; left | by left; right |].
        right. by exists cl'. }
  rewrite Hgen, elem_of_empty. tauto.
Qed.

(** The vocabulary after the blank: exactly the characters of the labels. *)
Lemma elem_of_vocabulary (labels : list str) (t : str) :
  t ∈ sorted (elements (collect_tokens (chars_of <$> labels)))
  ↔ ∃ s c, s ∈ labels ∧ c ∈ s ∧ t = [c].
Proof.
  unfold sorted. rewrite merge_sort_Permutation, elem_of_elements.
  rewrite elem_of_collect_tokens. split.
  - intros (clist & (s & -> & Hs)%list_elem_of_fmap & Ht).
    apply list_elem_of_fmap in Ht as (c & -> & Hc). by exists s, c.
  - intros (s & c & Hs & Hc & ->). exists (chars_of s). split.
    + apply list_elem_of_fmap. by exists s.
    + apply list_elem_of_fmap. by exists c.
Qed.

(** What [extract_data] returns, on every annotation table. *)
Lemma extract_data_Ok (annotations : list (str * str)) (blank : str) :
  let flat := blank :: sorted (elements (collect_tokens (chars_of <$> annotations.*2))) in
  ∃ e, extract_data annotations blank = Ok e
    ∧ token2ind e = build_token2ind flat
    ∧ ind2token e = build_ind2token flat
    ∧ blank_token e = blank
    ∧ token2ind e !! blank = Some (blank_ind e)
    ∧ Forall2 (λ label enc, mapR (getitem (token2ind e)) (chars_of label) = Ok enc)
        annotations.*2 (targets_enc e).
Proof.
  intros flat. unfold extract_data. fold flat.
  assert (∀ t, t ∈ flat → ∃ i, getitem (build_token2ind flat) t = Ok i) as Hget.
  { intros t [i Hi]%build_token2ind_complete. exists i. unfold getitem. by rewrite Hi. }
  destruct (mapR_Ok (mapR (getitem (build_token2ind flat)))
              (chars_of <$> annotations.*2)) as (encs & Hencs & HF).
  { intros clist (s & -> & Hs)%list_elem_of_fmap.
    destruct (mapR_Ok (getitem (build_token2ind flat)) (chars_of s)) as (enc & Henc & _).
    - intros t (c & -> & Hc)%list_elem_of_fmap. apply Hget. right.
      apply elem_of_vocabulary. by exists s, c.
    - by exists enc. }
  destruct (Hget blank) as [b Hb]; [left |].
  rewrite Hencs, Hb. simpl. eexists. split; [done |]. simpl.
  repeat split; try done.
  - unfold getitem in Hb. destruct (build_token2ind flat !! blank); congruence.
  - by apply Forall2_fmap_l in HF.
Qed.

Lemma codec_roundtrip (flat toks : list str) (enc : list nat) :
  mapR (getitem (build_token2ind flat)) toks = Ok enc →
  mapM (λ i, build_ind2token flat !! i) enc = Some toks.
Proof.
  intros HF%mapR_inv. apply mapM_Some, Forall2_flip.
  eapply Forall2_impl; [exact HF |]. intros t i. simpl.
  unfold getitem. destruct (build_token2ind flat !! t) as [j|] eqn:Hj; [|done].
  intros [= ->]. rewrite build_ind2token_lookup. by apply build_token2ind_sound.
Qed.

(** C3. Round trip of the alphabet codec: for every label [s] of the
    corpus [extract_data] was run on, mapping each character of [s] through
    [token2ind] succeeds, gives the encoding [extract_data] stored for [s],
    and mapping these indices back through [ind2token] and joining the
    tokens gives [s] again. *)
Theorem extract_data_roundtrip (annotations : list (str * str)) (blank s : str) :
  s ∈ annotations.*2 →
  ∃ e enc tokens,
    extract_data annotations blank = Ok e
    ∧ mapR (getitem (token2ind e)) (chars_of s) = Ok enc
    ∧ enc ∈ targets_enc e
    ∧ mapM (λ i, ind2token e !! i) enc = Some tokens
    ∧ join tokens = s.
Proof.
  intros Hs. destruct (extract_data_Ok annotations blank)
    as (e & He & Ht2i & Hi2t & _ & _ & HF).
  apply list_elem_of_lookup in Hs as [k Hk].
  destruct (Forall2_lookup_l _ _ _ _ _ HF Hk) as (enc & Henc & Hmap).
  exists e, enc, (chars_of s). repeat split; try done.
  - by eapply list_elem_of_lookup_2.
  - rewrite Hi2t. rewrite Ht2i in Hmap. by apply codec_roundtrip.
  - apply join_chars_of.
Qed.

Lemma extract_data_roundtrip_witness :
  ∃ e enc tokens,
    extract_data [(py "1.png", py "abba"); (py "2.png", py "cab")] BLANK = Ok e
    ∧ mapR (getitem (token2ind e)) (chars_of (py "cab")) = Ok enc
    ∧ enc ∈ targets_enc e
    ∧ mapM (λ i, ind2token e !! i) enc = Some tokens
    ∧ join tokens = py "cab".
Proof.
  apply (extract_data_roundtrip
           [(py "1.png", py "abba"); (py "2.png", py "cab")] BLANK (py "cab")).
  simpl. right. left.
Defined.

(** A blank token that is not a single character of the corpus gets
    index 0. *)
Lemma blank_index_zero_gen (annotations : list (str * str)) (blank : str) :
  (∀ s c, s ∈ annotations.*2 → c ∈ s → blank ≠ [c]) →
  ∃ e, extract_data annotations blank = Ok e
    ∧ token2ind e !! blank = Some 0 ∧ blank_ind e = 0.
Proof.
  intros Hfresh. destruct (extract_data_Ok annotations blank)
    as (e & He & Ht2i & _ & _ & Hb & _).
  exists e. split; [done |].
  assert (token2ind e !! blank = Some 0) as H0.
  { rewrite Ht2i. apply build_token2ind_head.
    intros (s & c & Hs & Hc & Heq)%elem_of_vocabulary. by eapply Hfresh. }
  split; [done | congruence].
Qed.

(** C4. Whatever the labels are, the codec [extract_data] builds with the
    blank token of the source, ["<BLANK>"], maps the blank token to
    index 0: both in [token2ind] and in the returned [blank_ind]. *)
Theorem blank_index_zero (annotations : list (str * str)) :
  ∃ e, extract_data annotations BLANK = Ok e
    ∧ blank_token e = BLANK
    ∧ token2ind e !! BLANK = Some 0
    ∧ blank_ind e = 0
    ∧ ind2token e !! 0 = Some BLANK.
Proof.
  destruct (blank_index_zero_gen annotations BLANK) as (e & He & H0 & Hb).
  { intros s c _ _. discriminate. }
  exists e. repeat split; try done.
  - destruct (extract_data_Ok annotations BLANK) as (e' & He' & _ & _ & Hbl & _).
    congruence.
  - destruct (extract_data_Ok annotations BLANK) as (e' & He' & _ & Hi2t & _).
    assert (e' = e) as -> by congruence.
    rewrite Hi2t. by rewrite build_ind2token_lookup.
Qed.

(** ** Batches *)

Lemma length_concat_sum (ss : list (list nat)) :
  length (concat ss) = sum_list (length <$> ss).
Proof.
  induction ss as [|s ss IH]; csimpl; [done |]. by rewrite length_app, IH.
Qed.

Lemma collate_loop_Ok (acc : collate_acc) (b : list item) (ss : list (list nat)) :
  Forall2 (λ it s, item_seqs it = Some s) b ss →
  collate_loop acc b =
    Ok {| acc_images := acc_images acc ++ (item_image <$> b);
          acc_seqs := acc_seqs acc ++ concat ss;
          acc_seq_lens := acc_seq_lens acc ++ (length <$> ss);
          acc_images_name := acc_images_name acc ++ (item_img_name <$> b) |}.
Proof.
  intros HF. revert acc. induction HF as [|it s b ss Hs _ IH]; intros acc; simpl.
  - rewrite !app_nil_r. by destruct acc.
  - unfold collate_step. rewrite Hs. simpl. rewrite IH. simpl.
    by rewrite <- !app_assoc.
Qed.

Lemma torch_stack_Ok (imgs : list image) :
  imgs ≠ [] →
  (∀ i j, i ∈ imgs → j ∈ imgs → shape i = shape j) →
  torch_stack imgs = Ok imgs.
Proof.
  destruct imgs as [|i rest]; [done |]. intros _ Hshape. simpl.
  replace (forallb _ rest) with true; [done |].
  symmetry. apply forallb_forall. intros j Hj%list_elem_of_In.
  apply bool_decide_eq_true. apply Hshape; [by right | left].
Qed.

Lemma collate_loop_inv (acc acc' : collate_acc) (b : list item) :
  collate_loop acc b = Ok acc' →
  ∃ ss, Forall2 (λ it s, item_seqs it = Some s) b ss.
Proof.
  revert acc. induction b as [|it b IH]; intros acc; simpl.
  - intros _. exists []. constructor.
  - unfold collate_step. destruct (item_seqs it) as [s|] eqn:Hs; simpl; [|done].
    intros [ss HF]%IH. exists (s :: ss). by constructor.
Qed.

(** Integers up to [2^24] pass through float32 and int32 unchanged. *)
Lemma tensor_int_exact (z : Z) : (0 ≤ z ≤ 2 ^ 24)%Z → tensor_int z = z.
Proof.
  intros Hz. destruct (decide (z = 2 ^ 24)%Z) as [->|Hne]; [reflexivity |].
  unfold tensor_int, round_float32, int32_of_float.
  rewrite Z.abs_eq by lia.
  destruct (Z.ltb_spec z (2 ^ 24)) as [Hlt|?]; [|lia].
  destruct (Z.leb_spec (- 2 ^ 31) z) as [_|?]; [|lia].
  destruct (Z.ltb_spec z (2 ^ 31)) as [_|?]; [done | lia].
Qed.

Lemma int_tensor_exact (l : list nat) :
  Forall (λ v, (Z.of_nat v ≤ 2 ^ 24)%Z) l → int_tensor l = Z.of_nat <$> l.
Proof.
  unfold int_tensor. induction 1 as [|v l Hv _ IH]; csimpl; [done |].
  rewrite IH, tensor_int_exact by lia. done.
Qed.

Lemma sumZ_of_nat (l : list nat) : sumZ (Z.of_nat <$> l) = Z.of_nat (sum_list l).
Proof. induction l as [|v l IH]; csimpl; [done |]. rewrite IH. lia. Qed.

(** C6, as the sources have it. The batch invariant of [collate_fn]:
    whenever it produces a batch there are as many lengths as samples, and
    if no label sequence has more than 2^24 tokens, which is as far as the
    float32 the lengths are stored through counts, the lengths sum to the
    length of the flat label sequence; and it does produce a batch on
    every batch (not empty, as a [DataLoader] hands it over) of samples
    that carry their encoded labels and whose images have one shape. *)
Theorem collate_fn_invariant (b : list item) :
  (∀ out, collate_fn b = Ok out →
     length (tb_seq_len out) = length b
     ∧ ((∀ it s, it ∈ b → item_seqs it = Some s →
           (Z.of_nat (length s) ≤ 2 ^ 24)%Z) →
        sumZ (tb_seq_len out) = Z.of_nat (length (tb_seq out))))
  ∧ (b ≠ [] →
     (∀ it, it ∈ b → is_Some (item_seqs it)) →
     (∀ i j, i ∈ b → j ∈ b → shape (item_image i) = shape (item_image j)) →
     ∃ out, collate_fn b = Ok out).
Proof.
  split.
  - intros out. unfold collate_fn.
    destruct (collate_loop _ b) as [acc|e] eqn:Hloop; simpl; [|done].
    destruct (collate_loop_inv _ _ _ Hloop) as [ss HF].
    rewrite (collate_loop_Ok _ _ _ HF) in Hloop. injection Hloop as <-. simpl.
    destruct (torch_stack _) as [imgs|e]; simpl; [|done].
    intros [= <-]. simpl. split.
    + unfold int_tensor. rewrite !length_fmap. symmetry. by eapply Forall2_length.
    + intros Hshort. rewrite int_tensor_exact.
      * rewrite sumZ_of_nat. unfold int_tensor.
        by rewrite length_fmap, length_concat_sum.
      * apply Forall_fmap, Forall_forall. intros s [k Hk]%list_elem_of_lookup.
        destruct (Forall2_lookup_r _ _ _ _ _ HF Hk) as (it & Hit & Hs).
        simpl. eapply Hshort; [by eapply list_elem_of_lookup_2 | done].
  - intros Hne Hseqs Hshape.
    assert (∃ ss, Forall2 (λ it s, item_seqs it = Some s) b ss) as [ss HF].
    { clear Hne Hshape. induction b as [|it b IH]; [exists []; constructor |].
      destruct (Hseqs it) as [s Hs]; [left |].
      destruct IH as [ss HF]; [intros ? ?; apply Hseqs; by right |].
      exists (s :: ss). by constructor. }
    unfold collate_fn. rewrite (collate_loop_Ok _ _ _ HF). simpl.
    rewrite torch_stack_Ok.
    + simpl. by eexists.
    + by destruct b.
    + intros i j (x & -> & Hx)%list_elem_of_fmap (y & -> & Hy)%list_elem_of_fmap.
      by apply Hshape.
Qed.

Lemma collate_fn_invariant_witness :
  ∃ out,
    collate_fn [ {| item_image := {| shape := [1; 50; 200] |};
                    item_img_name := py "a.png"; item_seqs := Some [3; 1; 2] |};
                 {| item_image := {| shape := [1; 50; 200] |};
                    item_img_name := py "b.png"; item_seqs := Some [2; 4] |} ]
      = Ok out
    ∧ sumZ (tb_seq_len out) = Z.of_nat (length (tb_seq out))
    ∧ length (tb_seq_len out) = 2.
Proof.
  pose proof (collate_fn_invariant
    [ {| item_image := {| shape := [1; 50; 200] |};
         item_img_name := py "a.png"; item_seqs := Some [3; 1; 2] |};
      {| item_image := {| shape := [1; 50; 200] |};
         item_img_name := py "b.png"; item_seqs := Some [2; 4] |} ])
    as [Hinv Hok].
  destruct Hok as [out Hout].
  - done.
  - intros it Hit. repeat (apply elem_of_cons in Hit as [->|Hit]; [simpl; eauto |]).
    by apply elem_of_nil in Hit.
  - intros i j Hi Hj.
    repeat (apply elem_of_cons in Hi as [->|Hi]);
      repeat (apply elem_of_cons in Hj as [->|Hj]);
      try done; by (apply elem_of_nil in Hi || apply elem_of_nil in Hj).
  - exists out. split; [exact Hout |].
    destruct (Hinv out Hout) as [Hlen Hsum]. split; [|exact Hlen].
    apply Hsum. intros it s Hit Hs.
    apply elem_of_cons in Hit as [->|Hit]; [injection Hs as <-; simpl; lia |].
    apply elem_of_cons in Hit as [->|Hit]; [injection Hs as <-; simpl; lia |].
    by apply elem_of_nil in Hit.
Defined.

(** What [collate_fn] returns for a single sample. *)
Lemma collate_fn_single (img : image) (name : str) (s : list nat) :
  collate_fn [ {| item_image := img; item_img_name := name;
                  item_seqs := Some s |} ]
  = Ok {| tb_images := [img];
          tb_seq := int_tensor s;
          tb_seq_len := [tensor_int (Z.of_nat (length s))];
          tb_img_name := [name] |}.
Proof. reflexivity. Qed.

(** For a single sample with 2^24 + 1 labels the one length of the batch is
    2^24: the lengths do not sum to the length of the flat sequence. *)
Lemma collate_fn_invariant_counterexample :
  ∃ out,
    collate_fn [ {| item_image := {| shape := [1; 50; 200] |};
                    item_img_name := py "a.png";
                    item_seqs := Some (replicate (Z.to_nat 16777217) 1) |} ]
      = Ok out
    ∧ sumZ (tb_seq_len out) = 16777216%Z
    ∧ Z.of_nat (length (tb_seq out)) = 16777217%Z.
Proof.
  eexists. split; [apply collate_fn_single |].
  cbn [tb_seq_len tb_seq]. unfold int_tensor.
  rewrite length_fmap, !length_replicate, Z2Nat.id by done.
  split; reflexivity.
Qed.

(** ** The greedy decoder *)

Section greedy.
Import utils.

Lemma collapse_repeats_cons (prev : option nat) (c : nat) (raw : list nat) :
  collapse_repeats prev (c :: raw) =
    if bool_decide (prev = Some c) then collapse_repeats (Some c) raw
    else c :: collapse_repeats (Some c) raw.
Proof. done. Qed.

Lemma collapse_repeats_run (c : nat) (n : nat) (raw : list nat) :
  collapse_repeats (Some c) (replicate n c ++ raw) = collapse_repeats (Some c) raw.
Proof.
  induction n as [|n IH]; [done |].
  change (replicate (S n) c ++ raw) with (c :: (replicate n c ++ raw)).
  by rewrite collapse_repeats_cons, bool_decide_eq_true_2.
Qed.

Lemma collapse_repeats_repeat (prev : option nat) (l1 l2 : list nat) (c n : nat) :
  collapse_repeats prev (l1 ++ replicate (S n) c ++ l2)
  = collapse_repeats prev (l1 ++ c :: l2).
Proof.
  revert prev. induction l1 as [|a l1 IH]; intros prev.
  - change ([] ++ replicate (S n) c ++ l2) with (c :: (replicate n c ++ l2)).
    change ([] ++ c :: l2) with (c :: l2).
    by rewrite !collapse_repeats_cons, collapse_repeats_run.
  - change ((a :: l1) ++ replicate (S n) c ++ l2)
      with (a :: (l1 ++ replicate (S n) c ++ l2)).
    change ((a :: l1) ++ c :: l2) with (a :: (l1 ++ c :: l2)).
    by rewrite !collapse_repeats_cons, !IH.
Qed.

Lemma collapse_repeats_sublist (prev : option nat) (raw : list nat) :
  collapse_repeats prev raw `sublist_of` raw.
Proof.
  revert prev. induction raw as [|c raw IH]; intros prev; [done |].
  rewrite collapse_repeats_cons.
  case_bool_decide; [apply sublist_cons | apply sublist_skip]; apply IH.
Qed.

Lemma greedy_decode_all_blank (blank n : nat) :
  greedy_decode blank (replicate n blank) = [].
Proof.
  unfold greedy_decode. destruct n as [|n]; [done |].
  change (replicate (S n) blank) with (blank :: replicate n blank).
  rewrite collapse_repeats_cons, bool_decide_eq_false_2 by done.
  rewrite <- (app_nil_r (replicate n blank)), collapse_repeats_run.
  change (collapse_repeats (Some blank) []) with (@nil nat).
  rewrite filter_cons_False by (intros H; by apply H). done.
Qed.

Lemma greedy_decode_no_blank (blank : nat) (raw : list nat) :
  blank ∉ greedy_decode blank raw.
Proof.
  unfold greedy_decode. intros [H _]%list_elem_of_filter. by apply H.
Qed.

Lemma greedy_decode_sublist (blank : nat) (raw : list nat) :
  greedy_decode blank raw `sublist_of` raw.
Proof.
  unfold greedy_decode. etrans; [apply sublist_filter |].
  apply collapse_repeats_sublist.
Qed.

Lemma greedy_decode_repeat (blank : nat) (l1 l2 : list nat) (c n : nat) :
  greedy_decode blank (l1 ++ replicate (S n) c ++ l2)
  = greedy_decode blank (l1 ++ c :: l2).
Proof. unfold greedy_decode. by rewrite collapse_repeats_repeat. Qed.

(** The scan, one raw symbol further: the symbol is kept exactly when it
    differs from the raw symbol before it. *)
Lemma collapse_repeats_snoc (prev : option nat) (raw : list nat) (c : nat) :
  collapse_repeats prev (raw ++ [c])
  = collapse_repeats prev raw
    ++ (if bool_decide (from_option Some prev (last raw) = Some c) then [] else [c]).
Proof.
  revert prev. induction raw as [|a raw IH]; intros prev.
  - change ([] ++ [c]) with [c]. rewrite collapse_repeats_cons. simpl.
    by case_bool_decide.
  - change ((a :: raw) ++ [c]) with (a :: (raw ++ [c])).
    rewrite !collapse_repeats_cons, IH, last_cons.
    assert (from_option Some (Some a) (last raw)
            = from_option Some prev (match last raw with
                                     | Some y => Some y
                                     | None => Some a
                                     end)) as -> by by destruct (last raw).
    by case_bool_decide.
Qed.

Lemma greedy_decode_snoc (blank : nat) (raw : list nat) (c : nat) :
  greedy_decode blank (raw ++ [c])
  = greedy_decode blank raw
    ++ (if bool_decide (c ≠ blank ∧ last raw ≠ Some c) then [c] else []).
Proof.
  unfold greedy_decode. rewrite collapse_repeats_snoc, filter_app. f_equal.
  replace (from_option Some None (last raw)) with (last raw)
    by by destruct (last raw).
  destruct (decide (last raw = Some c)) as [Hl|Hl].
  - rewrite bool_decide_eq_true_2 by done.
    rewrite bool_decide_eq_false_2 by (intros [_ ?]; done). done.
  - rewrite (bool_decide_eq_false_2 (last raw = Some c)) by done.
    destruct (decide (c = blank)) as [Hc|Hc].
    + rewrite bool_decide_eq_false_2 by (intros [? _]; done).
      by rewrite filter_cons_False by (intros H; by apply H).
    + rewrite bool_decide_eq_true_2 by done.
      by rewrite filter_cons_True by done.
Qed.

End greedy.

(** C1. The greedy sequence decoder drops every index equal to the blank
    index and collapses consecutive repeats of one raw symbol: with blank 0
    the raw sequence [0,3,3,0,5,5,5,0] decodes to [3,5]; an all-blank
    sequence of any length decodes to the empty sequence; no decoded
    sequence holds the blank; the decoded symbols are raw symbols in their
    order; a run of one symbol decodes as a single occurrence of it.  Which
    raw symbols are kept is fixed symbol by symbol: the empty sequence
    decodes to the empty sequence, and a raw sequence one symbol longer
    decodes to the same followed by the new symbol exactly when that is not
    the blank and differs from the raw symbol before it; so a symbol that
    comes back after a blank is kept again, [3,0,3] decoding to [3,3]. *)
Theorem greedy_decode_correct :
  utils.greedy_decode 0 [0; 3; 3; 0; 5; 5; 5; 0] = [3; 5]
  ∧ utils.greedy_decode 0 [0; 0; 0] = []
  ∧ (∀ blank n, utils.greedy_decode blank (replicate n blank) = [])
  ∧ (∀ blank raw, blank ∉ utils.greedy_decode blank raw)
  ∧ (∀ blank raw, utils.greedy_decode blank raw `sublist_of` raw)
  ∧ (∀ blank l1 c n l2,
       utils.greedy_decode blank (l1 ++ replicate (S n) c ++ l2)
       = utils.greedy_decode blank (l1 ++ c :: l2))
  ∧ (∀ blank, utils.greedy_decode blank [] = [])
  ∧ (∀ blank raw c,
       utils.greedy_decode blank (raw ++ [c])
       = utils.greedy_decode blank raw
         ++ (if bool_decide (c ≠ blank ∧ last raw ≠ Some c) then [c] else []))
  ∧ utils.greedy_decode 0 [3; 0; 3] = [3; 3].
Proof.
  split; [reflexivity |]. split; [reflexivity |].
  split; [apply greedy_decode_all_blank |].
  split; [apply greedy_decode_no_blank |].
  split; [apply greedy_decode_sublist |].
  split; [intros; apply greedy_decode_repeat |].
  split; [reflexivity |].
  split; [apply greedy_decode_snoc | reflexivity].
Qed.

(** The decoder over a batch, on an alphabet built by [extract_data]. *)
Example decode_batch_outputs_small :
  match extract_data [(py "1.png", py "acb"); (py "2.png", py "de")] BLANK with
  | Ok e =>
      utils.decode_batch_outputs [[0; 3; 3; 0; 5; 5; 5; 0]; [0; 0; 0]]
        (ind2token e) (blank_ind e) (blank_token e)
      = Ok ([py "ce"; py ""], [[3; 5]; []])
  | Raise _ => False
  end.
Proof. vm_compute. done. Qed.

(** ** The character error rate *)

Section cer.
Import torchmetrics.

Lemma lev_nil_l (y : str) : lev [] y = length y.
Proof. by destruct y. Qed.

Lemma lev_nil_r (x : str) : lev x [] = length x.
Proof. by destruct x. Qed.

Lemma lev_cons (a b : code_point) (x y : str) :
  lev (a :: x) (b :: y) =
    if bool_decide (a = b) then lev x y
    else S (Nat.min (Nat.min (lev x (b :: y)) (lev (a :: x) y)) (lev x y)).
Proof. done. Qed.

Lemma lev_refl (x : str) : lev x x = 0.
Proof.
  induction x as [|a x IH]; [done |].
  by rewrite lev_cons, bool_decide_eq_true_2.
Qed.

Lemma lev_sym (x y : str) : lev x y = lev y x.
Proof.
  revert y. induction x as [|a x IHx]; intros y.
  - by rewrite lev_nil_l, lev_nil_r.
  - induction y as [|b y IHy]; [done |].
    rewrite !lev_cons. rewrite (IHx (b :: y)), (IHx y), IHy.
    destruct (decide (a = b)) as [->|Hne].
    + by rewrite !bool_decide_eq_true_2.
    + rewrite !bool_decide_eq_false_2 by congruence. f_equal. lia.
Qed.

Lemma _edit_distance_refl (s : str) : _edit_distance s s = 0.
Proof. apply lev_refl. Qed.

Lemma _edit_distance_sym (s t : str) : _edit_distance s t = _edit_distance t s.
Proof. apply lev_sym. Qed.

Lemma _edit_distance_nil_r (s : str) : _edit_distance s [] = length s.
Proof. unfold _edit_distance. by rewrite lev_nil_r, length_reverse. Qed.

Lemma CharErrorRate_Str (preds target : str) :
  CharErrorRate (Str preds) (Str target)
  = tensor_div (_edit_distance preds target) (length target).
Proof.
  unfold CharErrorRate, _cer_compute. simpl. by rewrite !Nat.add_0_r.
Qed.

End cer.

(** C2, as the sources have it. For every true string and predicted string
    of the same length, the scorer returns the edit distance divided by
    that length, which is the length of the true string, and the
    denominator has no floor of 1: two empty strings score NaN (0/0), and
    non-empty strings score what the specification's formula gives.  The
    edit distance does not depend on which string is the reference, and a
    string scored against itself has no errors. *)
Theorem evaluations_cer_equal_length (t p : str) :
  length t = length p →
  OCR._evaluations_cer (torchmetrics.Str t) (torchmetrics.Str p)
  = match t with
    | [] => NaN
    | _ :: _ => score_spec t p
    end
  ∧ torchmetrics._edit_distance t p = torchmetrics._edit_distance p t
  ∧ torchmetrics._edit_distance t t = 0.
Proof.
  intros Hlen. split; [|split].
  - unfold OCR._evaluations_cer. rewrite CharErrorRate_Str, <- Hlen.
    destruct t as [|a t]; [by destruct p |].
    unfold score_spec. rewrite (_edit_distance_sym p). done.
  - apply _edit_distance_sym.
  - apply _edit_distance_refl.
Qed.

Lemma evaluations_cer_equal_length_witness :
  OCR._evaluations_cer (torchmetrics.Str (py "cat")) (torchmetrics.Str (py "cat"))
  = Finite 0.
Proof.
  exact (proj1 (evaluations_cer_equal_length (py "cat") (py "cat") eq_refl)).
Defined.

(** The specification's formula fails on its own example: against an empty
    prediction the scorer divides three errors by zero; and on two empty
    strings it divides zero by zero. *)
Lemma evaluations_cer_counterexample :
  OCR._evaluations_cer (torchmetrics.Str (py "cat")) (torchmetrics.Str (py "")) = PInf
  ∧ score_spec (py "cat") (py "") = Finite 1
  ∧ OCR._evaluations_cer (torchmetrics.Str (py "")) (torchmetrics.Str (py "")) = NaN
  ∧ score_spec (py "") (py "") = Finite 0.
Proof. repeat split. Qed.

Example evaluations_cer_bat :
  OCR._evaluations_cer (torchmetrics.Str (py "cat")) (torchmetrics.Str (py "bat"))
  = Finite (1 # 3).
Proof. reflexivity. Qed.

(** ** Checkpoints *)

(** A strict comparison of two floats reads the same from either side. *)
Lemma float_lt_gt (a b : pyfloat) : float_lt a b = float_gt b a.
Proof. done. Qed.

Lemma float_gt_irrefl (a : pyfloat) : float_gt a a = false.
Proof.
  destruct a as [q| | |]; simpl; try done.
  destruct (Qlt_le_dec q q) as [H|_]; [|done]. by apply Qlt_irrefl in H.
Qed.

(** Inside [train] the directory of the checkpoints is there to be made:
    [save] writes. *)
Lemma save_checkpoint_file (self : OCR.t) (n : nat) (l : pyfloat)
    (training : bool) (fs : filesystem) :
  OCR.save self {| name_dir := OCR._path_save_checkpoint self;
                   name_epoch := n; name_loss := l |} training fs
  = Ok (fs ++ [({| name_dir := OCR._path_save_checkpoint self;
                   name_epoch := n; name_loss := l |},
                saved_state self training)]).
Proof. by destruct training. Qed.

(** C5, as the sources have it. After every training-epoch/validation-epoch
    pair of a run with [save_checkpoint] on (its default), a checkpoint
    tagged with the epoch number and the validation loss is written if and
    only if the validation loss is strictly less than the best seen so far,
    and the best-seen loss then becomes the new value; with
    [save_checkpoint] off nothing is written and the best-seen loss
    stays. *)
Theorem train_epoch_checkpoint (save_checkpoint : bool) (self : OCR.t)
    (fs : filesystem) (ep : epoch_pair) :
  let improved := float_lt (eval_loss ep) (OCR._eval_loss self) in
  ∃ r, OCR.train_epoch save_checkpoint (self, fs) ep = Ok r
    ∧ r.2 = (if save_checkpoint && improved
             then fs ++ [improved_checkpoint self ep] else fs)
    ∧ OCR._eval_loss r.1
      = (if save_checkpoint && improved then eval_loss ep else OCR._eval_loss self)
    ∧ OCR._epoch r.1 = OCR._epoch self + 1.
Proof.
  unfold float_lt, OCR.train_epoch. simpl.
  destruct save_checkpoint; simpl; [|by eexists].
  destruct (float_gt (OCR._eval_loss self) (eval_loss ep)); by eexists.
Qed.

(** With [save_checkpoint=False] an improving epoch leaves no checkpoint. *)
Lemma train_epoch_checkpoint_counterexample :
  let self := OCR.__init__ [] [] BLANK 0 ∅ ∅ in
  let ep := {| new_model := []; new_optimizer := [];
               train_loss := Finite 2; eval_loss := Finite 1 |} in
  float_lt (eval_loss ep) (OCR._eval_loss self) = true
  ∧ ∃ r, OCR.train_epoch false (self, []) ep = Ok r
      ∧ r.2 = []
      ∧ OCR._eval_loss r.1 = PInf.
Proof. split; [reflexivity |]. by eexists. Qed.

(** ** [load_state_dict] *)

Lemma state_lookup_is_Some (key : string) (sd : state_dict) :
  is_Some (state_lookup key sd) ↔ key ∈ sd.*1.
Proof.
  induction sd as [|[k v] sd IH]; simpl.
  - split; [by intros [? ?] | by intros ?%elem_of_nil].
  - destruct (String.eqb_spec k key) as [->|Hne].
    + split; [intros _; left | by eexists].
    + rewrite IH, elem_of_cons. split; [by right | by intros [?|?]].
Qed.

Lemma state_lookup_Some (key : string) (v : tensor) (sd : state_dict) :
  NoDup sd.*1 → (key, v) ∈ sd → state_lookup key sd = Some v.
Proof.
  induction sd as [|[k w] sd IH]; simpl; [by intros _ ?%elem_of_nil |].
  intros [Hk Hnd]%NoDup_cons [[= -> ->]|Hin]%elem_of_cons.
  - by rewrite String.eqb_refl.
  - destruct (String.eqb_spec k key) as [->|Hne]; [|by apply IH].
    exfalso. apply Hk. apply list_elem_of_fmap. by exists (key, v).
Qed.

(** What the strict load asks for: every parameter of the network finds a
    tensor of its shape under its name, and every name given is one of the
    network. *)
Lemma Module_accepts_spec (own given : state_dict) :
  Module_accepts own given = true
  ↔ (∀ k p, (k, p) ∈ own →
       ∃ q, state_lookup k given = Some q ∧ t_shape q = t_shape p)
    ∧ (∀ k, k ∈ given.*1 → k ∈ own.*1).
Proof.
  unfold Module_accepts.
  rewrite andb_true_iff, !forallb_forall. split.
  - intros [Hown Hgiven]. split.
    + intros k p Hin. apply list_elem_of_In, Hown in Hin.
      unfold param_found in Hin. simpl in Hin.
      destruct (state_lookup k given) as [q|]; [|done].
      exists q. split; [done |]. by apply bool_decide_eq_true_1 in Hin.
    + intros k Hk. apply list_elem_of_In, Hgiven in Hk.
      by apply bool_decide_eq_true_1, state_lookup_is_Some in Hk.
  - intros [Hown Hgiven]. split.
    + intros [k p] Hin. apply list_elem_of_In, Hown in Hin as (q & Hq & Hs).
      unfold param_found. simpl. rewrite Hq. by apply bool_decide_eq_true_2.
    + intros k Hk. apply list_elem_of_In, Hgiven in Hk.
      by apply bool_decide_eq_true_2, state_lookup_is_Some.
Qed.


(** A state of the same layout is accepted and taken over whole. *)
Lemma Module_load_state_dict_layout (own given : state_dict) :
  NoDup given.*1 → layout own = layout given →
  Module_accepts own given = true ∧ copy_param given <$> own = given.
Proof.
  intros Hnd Hlay.
  assert (∀ i p, own !! i = Some p →
            ∃ q, given !! i = Some (p.1, q) ∧ t_shape q = t_shape p.2) as Hpos.
  { intros i [k p] Hi.
    assert (layout own !! i = Some (k, t_shape p)) as Hl
      by (unfold layout; by rewrite list_lookup_fmap, Hi).
    rewrite Hlay in Hl. unfold layout in Hl. rewrite list_lookup_fmap in Hl.
    destruct (given !! i) as [[k' q]|]; [|done].
    injection Hl as -> Hs. by exists q. }
  assert (own.*1 = given.*1) as Hkeys.
  { apply (f_equal (fmap fst)) in Hlay. unfold layout in Hlay.
    by rewrite <- !list_fmap_compose in Hlay. }
  assert (∀ i p, own !! i = Some p → state_lookup p.1 given = (snd <$> given !! i))
    as Hlook.
  { intros i p Hi. destruct (Hpos i p Hi) as (q & Hq & _). rewrite Hq. simpl.
    apply state_lookup_Some; [done |]. by eapply list_elem_of_lookup_2. }
  split; [|apply list_eq; intros i; rewrite list_lookup_fmap].
  2: {
    destruct (own !! i) as [p|] eqn:Hi; simpl.
    + destruct (Hpos i p Hi) as (q & Hq & Hs).
      pose proof (Hlook i p Hi) as Hl. rewrite Hq in Hl. simpl in Hl.
      unfold copy_param. rewrite Hl.
      by rewrite bool_decide_eq_true_2.
    + symmetry. apply lookup_ge_None. apply lookup_ge_None in Hi.
      apply (f_equal length) in Hkeys. rewrite !length_fmap in Hkeys. lia. }
  apply Module_accepts_spec. split.
  - intros k p [i Hi]%list_elem_of_lookup.
    destruct (Hpos i _ Hi) as (q & Hq & Hs). exists q. split; [|done].
    pose proof (Hlook i _ Hi) as Hl. rewrite Hq in Hl. exact Hl.
  - intros k. by rewrite Hkeys.
Qed.

Lemma Optimizer_load_state_dict_Ok (own given o : optimizer_state) :
  Optimizer_load_state_dict own given = Ok o
  ↔ group_sizes own = group_sizes given ∧ o = given.
Proof.
  unfold Optimizer_load_state_dict. split.
  - repeat case_bool_decide; try done. by intros [= <-].
  - intros [Hs ->]. rewrite !bool_decide_eq_true_2; [done | done |].
    apply (f_equal length) in Hs. unfold group_sizes in Hs.
    by rewrite !length_fmap in Hs.
Qed.

Lemma Optimizer_load_state_dict_Raise (own given : optimizer_state) :
  group_sizes own ≠ group_sizes given →
  ∃ msg, Optimizer_load_state_dict own given = Raise (ValueError msg).
Proof.
  intros Hs. unfold Optimizer_load_state_dict.
  repeat case_bool_decide; try done; by eexists.
Qed.

(** ** [save] and [load] *)

(** What a call of [load] that returns has done. *)
Lemma load_Ok (self r : OCR.t) (ck : checkpoint) :
  OCR.load self ck = Ok r →
  (∃ sd, model_state_dict ck = Some sd
     ∧ Module_accepts (OCR.model self) sd = true
     ∧ OCR.model r = copy_param sd <$> OCR.model self)
  ∧ (is_Some (epoch ck) → is_Some (loss ck))
  ∧ (∀ o, optimizer_state_dic ck = Some o →
       group_sizes (OCR._optimizer self) = group_sizes o)
  ∧ OCR._epoch r = default (OCR._epoch self) (epoch ck)
  ∧ OCR._eval_loss r
    = match epoch ck with
      | Some _ => default (OCR._eval_loss self) (loss ck)
      | None => OCR._eval_loss self
      end
  ∧ OCR._optimizer r = default (OCR._optimizer self) (optimizer_state_dic ck)
  ∧ OCR._device r = OCR._device self
  ∧ OCR.blank_token r = OCR.blank_token self
  ∧ OCR.blank_ind r = OCR.blank_ind self
  ∧ OCR.ind2token r = OCR.ind2token self
  ∧ OCR.token2ind r = OCR.token2ind self.
Proof.
  unfold OCR.load, OCR.load_run.
  destruct ck as [m o n l]. cbn [model_state_dict optimizer_state_dic epoch loss].
  assert (∃ self1,
    (if bool_decide (is_Some o) then
       do v <- OCR.field "optimizer_state_dic" o;
       do o' <- Optimizer_load_state_dict (OCR._optimizer self) v;
       Ok (OCR.set_optimizer o' self)
     else Ok self) = self1) as [self1 H1] by by eexists.
  rewrite H1. destruct self1 as [self1|e]; [|done].
  assert (self1 = OCR.set_optimizer (default (OCR._optimizer self) o) self
          ∧ ∀ o', o = Some o' →
              group_sizes (OCR._optimizer self) = group_sizes o') as [-> Hopt].
  { destruct o as [o'|]; simpl in H1.
    - destruct (Optimizer_load_state_dict _ o') as [o''|] eqn:Ho; [|done].
      apply Optimizer_load_state_dict_Ok in Ho as [Hs ->].
      simpl in H1. injection H1 as <-. split; [done |]. by intros ? [= <-].
    - injection H1 as <-. split; [by destruct self | done]. }
  clear H1.
  unfold Module_load_state_dict.
  destruct n as [n|]; simpl.
  - destruct l as [l|]; simpl; [|done].
    destruct m as [sd|]; simpl; [|done].
    destruct (Module_accepts _ sd) eqn:Hacc; [|done].
    intros [= <-]. simpl. split; [by exists sd |].
    split; [by eexists |]. done.
  - destruct m as [sd|]; simpl; [|done].
    destruct (Module_accepts _ sd) eqn:Hacc; [|done].
    intros [= <-]. simpl. split; [by exists sd |].
    split; [by intros [? ?] |]. done.
Qed.

(** A checkpoint that [save] wrote with [training=True] loads into an
    object of the same network and optimiser. *)
Lemma load_saved_state (self other : OCR.t) :
  NoDup (OCR.model self).*1 →
  layout (OCR.model other) = layout (OCR.model self) →
  group_sizes (OCR._optimizer other) = group_sizes (OCR._optimizer self) →
  OCR.load other (saved_state self true)
  = Ok (OCR.set_model (OCR.model self)
          (OCR.set_eval_loss (OCR._eval_loss self)
             (OCR.set_epoch (OCR._epoch self)
                (OCR.set_optimizer (OCR._optimizer self) other)))).
Proof.
  intros Hnd Hlay Hopt. unfold OCR.load, OCR.load_run, saved_state.
  cbn [model_state_dict optimizer_state_dic epoch loss OCR.field].
  rewrite !bool_decide_eq_true_2 by by eexists. cbn [rbind].
  rewrite (proj2 (Optimizer_load_state_dict_Ok _ _ _) (conj Hopt eq_refl)).
  destruct (Module_load_state_dict_layout _ _ Hnd Hlay) as [Hacc Hcopy].
  unfold Module_load_state_dict. simpl. by rewrite Hacc, Hcopy.
Qed.

(** A checkpoint written without the training information loads into an
    object of the same network. *)
Lemma load_model_only (self : OCR.t) (sd : state_dict) :
  NoDup sd.*1 → layout (OCR.model self) = layout sd →
  OCR.load self {| model_state_dict := Some sd; optimizer_state_dic := None;
                   epoch := None; loss := None |}
  = Ok (OCR.set_model sd self).
Proof.
  intros Hnd Hlay. unfold OCR.load, OCR.load_run. simpl.
  destruct (Module_load_state_dict_layout _ _ Hnd Hlay) as [Hacc Hcopy].
  by rewrite Hacc, Hcopy.
Qed.

(** C7 fails on the sources: a checkpoint with the model parameters and the
    epoch counter but without the best validation loss does not load,
    whatever else it holds and whatever object it is loaded into; [load]
    looks the key ["loss"] up under the test for ["epoch"] and raises
    [KeyError], as soon as the optimiser has taken the state stored for
    it, if one is stored; so it is without an optimiser state and with the
    one the object has. *)
Theorem load_epoch_without_loss (self : OCR.t) (sd : state_dict)
    (opt : option optimizer_state) (n : nat) :
  OCR.load self {| model_state_dict := Some sd; optimizer_state_dic := opt;
                   epoch := Some n; loss := None |}
  = Raise (match opt with
           | Some o =>
               match Optimizer_load_state_dict (OCR._optimizer self) o with
               | Ok _ => KeyError (py "loss")
               | Raise e => e
               end
           | None => KeyError (py "loss")
           end)
  ∧ OCR.load self {| model_state_dict := Some sd; optimizer_state_dic := None;
                     epoch := Some n; loss := None |}
    = Raise (KeyError (py "loss"))
  ∧ OCR.load self {| model_state_dict := Some sd;
                     optimizer_state_dic := Some (OCR._optimizer self);
                     epoch := Some n; loss := None |}
    = Raise (KeyError (py "loss"))
  ∧ (∀ o, group_sizes (OCR._optimizer self) = group_sizes o →
       OCR.load self {| model_state_dict := Some sd;
                        optimizer_state_dic := Some o;
                        epoch := Some n; loss := None |}
       = Raise (KeyError (py "loss"))).
Proof.
  assert (∀ o, group_sizes (OCR._optimizer self) = group_sizes o →
       OCR.load self {| model_state_dict := Some sd;
                        optimizer_state_dic := Some o;
                        epoch := Some n; loss := None |}
       = Raise (KeyError (py "loss"))) as Hfits.
  { intros o Ho. unfold OCR.load, OCR.load_run. simpl.
    by rewrite (proj2 (Optimizer_load_state_dict_Ok _ _ _) (conj Ho eq_refl)). }
  split; [|split; [reflexivity |]; split; [by apply Hfits | exact Hfits]].
  destruct opt as [o|]; [|reflexivity].
  unfold OCR.load, OCR.load_run. simpl.
  by destruct (Optimizer_load_state_dict _ o).
Qed.

(** And a stored best loss is not read unless the epoch is stored too. *)
Lemma load_loss_without_epoch (self : OCR.t) (sd : state_dict) (l : pyfloat) :
  NoDup sd.*1 → layout (OCR.model self) = layout sd →
  OCR.load self {| model_state_dict := Some sd; optimizer_state_dic := None;
                   epoch := None; loss := Some l |}
  = Ok (OCR.set_model sd self).
Proof.
  intros Hnd Hlay. unfold OCR.load, OCR.load_run. simpl.
  destruct (Module_load_state_dict_layout _ _ Hnd Hlay) as [Hacc Hcopy].
  by rewrite Hacc, Hcopy.
Qed.

(** ** The entry points *)

Section pipelines.
Variable train_test_split : arg → arg → arg → Z → split_result.


(** A loader comes out of the constructor with the batch size that went
    in. *)
Lemma new_DataLoader_inr (dataset : CaptchaDataset) (b : arg) (shuffle : bool)
    (c : collate) (dl : DataLoader) :
  new_DataLoader dataset b shuffle c = inr dl →
  dl = {| dl_dataset := dataset; dl_batch_size := b; dl_shuffle := shuffle;
          dl_collate_fn := c |}
  ∧ (b = ANone ∨ ∃ z, b = AInt z ∧ (0 < z)%Z).
Proof.
  unfold new_DataLoader. destruct b as [|?|z|?|?|?|?]; try done.
  - intros [= <-]. split; [done | by left].
  - destruct (Z.ltb_spec 0 z) as [Hz|Hz]; [|done].
    intros [= <-]. split; [done |]. right. by exists z.
Qed.




(** The call of [create_loaders] in [predict_pipeline] builds one loader,
    if the batch size of the configuration is positive. *)
Lemma predict_pipeline_loader (paths : list str) (transform : arg) (b : Z) :
  create_loaders train_test_split [APaths paths]
    [("transform", transform); ("split", ABool false); ("batch_size", AInt b)]
  = if (0 <? b)%Z
    then inr (Loader {| dl_dataset := {| ds_paths_to_images := APaths paths;
                                         ds_targets := ANone;
                                         ds_transform := transform |};
                        dl_batch_size := AInt b; dl_shuffle := false;
                        dl_collate_fn := Collate_fn_predict |})
    else inl (BatchSizeNotPositive (AInt b)).
Proof.
  unfold create_loaders.
  assert (∃ env,
    bind_args create_loaders_sig [APaths paths]
      [("transform", transform); ("split", ABool false); ("batch_size", AInt b)]
    = inr env
    ∧ bound "paths_to_images" env = Some (APaths paths)
    ∧ bound "labels" env = Some ANone
    ∧ bound "transform" env = Some transform
    ∧ bound "split" env = Some (ABool false)
    ∧ bound "batch_size" env = Some (AInt b))
    as (env & -> & Hp & Hl & Ht & Hsplit & Hb).
  { eexists. split; [reflexivity |]. repeat split. }
  unfold create_loaders_body. rewrite Hp, Hl, Ht, Hsplit, Hb.
  cbn [default from_option]. unfold id. cbn [truthy].
  unfold new_DataLoader. by destruct (0 <? b)%Z.
Qed.

(** The class of [src/model.py] has no attribute [predict]. *)
Lemma model_py_OCR_no_predict (fresh_model : state_dict)
    (fresh_optimizer : optimizer_state) :
  "predict" ∉ cls_attributes (model_py_OCR fresh_model fresh_optimizer).
Proof. intros Hin. by apply (bool_decide_pack _) in Hin. Qed.

(** With a class that has no attribute [predict], no run of
    [predict_pipeline] ends normally. *)
Lemma predict_pipeline_raises {obj} (OCR : OCR_class obj) (w : predict_world) :
  "predict" ∉ cls_attributes OCR →
  ∃ e, predict_pipeline OCR train_test_split w = Raise e.
Proof.
  intros Hno. unfold predict_pipeline.
  destruct (if create_annotations w then created_list w else Ok ())
    as [[]|e]; cbn [rbind]; [|by eexists].
  destruct (annotations w) as [paths|e]; cbn [rbind]; [|by eexists].
  destruct (trainer_params w) as [tp|e]; cbn [rbind]; [|by eexists].
  destruct (create_loaders _ _ _) as [?|l]; cbn [rbind]; [by eexists |].
  destruct (cls_new OCR _ _ _ _ _) as [m|e]; cbn [rbind]; [|by eexists].
  destruct (call_method OCR "to" _) as [m1|e]; cbn [rbind]; [|by eexists].
  destruct (call_method OCR "load" _) as [m2|e]; cbn [rbind]; [|by eexists].
  unfold call_method. rewrite bool_decide_eq_false_2 by done. by eexists.
Qed.

(** C9. Every run of [predict_pipeline] that reaches its last step (the
    annotations and the vocabulary file were read, the loader built, the
    object made, moved to the device and the checkpoint loaded into it)
    raises [AttributeError] there, for every class that [OCR] may name
    which has no attribute [predict]; and the class [OCR] of
    [src/model.py] has none. *)
Theorem predict_pipeline_AttributeError {obj} (OCR : OCR_class obj)
    (w : predict_world) (paths : list str) (tp : extracted) (m m1 m2 : obj) :
  "predict" ∉ cls_attributes OCR →
  (if create_annotations w then created_list w else Ok ()) = Ok () →
  annotations w = Ok paths →
  trainer_params w = Ok tp →
  (0 < predict_batch_size w)%Z →
  cls_new OCR (blank_token tp) (blank_ind tp) (ind2token tp) (token2ind tp)
    (num_classes tp) = Ok m →
  call_method OCR "to"
    (cls_to OCR m (if cuda_is_available w then "cuda:0" else "cpu")) = Ok m1 →
  call_method OCR "load" (cls_load OCR m1 (stored_checkpoint w)) = Ok m2 →
  predict_pipeline OCR train_test_split w
  = Raise (AttributeError (cls_name OCR) "predict")
  ∧ ∀ fresh_model fresh_optimizer,
      "predict" ∉ cls_attributes (model_py_OCR fresh_model fresh_optimizer).
Proof.
  intros Hno Hc Ha Ht Hb Hnew Hto Hload.
  split; [|apply model_py_OCR_no_predict].
  unfold predict_pipeline. rewrite Hc, Ha, Ht. cbn [rbind].
  rewrite predict_pipeline_loader.
  destruct (Z.ltb_spec 0 (predict_batch_size w)) as [_|?]; [|lia].
  cbn [rbind]. rewrite Hnew. cbn [rbind]. rewrite Hto. cbn [rbind].
  rewrite Hload. cbn [rbind].
  unfold call_method. by rewrite bool_decide_eq_false_2.
Qed.

End pipelines.

(** ** Evaluation *)

Lemma encoding_Ok (indices : list nat) (ind2token : gmap nat str) :
  (∀ i, i ∈ indices → is_Some (ind2token !! i)) →
  ∃ tokens, utils.encoding indices ind2token = Ok tokens
    ∧ Forall2 (λ i t, ind2token !! i = Some t) indices tokens.
Proof.
  intros Hin. unfold utils.encoding.
  edestruct (mapR_Ok (λ i, match ind2token !! i with
                           | Some t => Ok t
                           | None => Raise (UnknownIndexError i)
                           end) indices) as (tokens & Htok & HF).
  { intros i [t Ht]%Hin. exists t. by rewrite Ht. }
  exists tokens. split; [done |].
  eapply Forall2_impl; [exact HF |]. intros i t. simpl.
  destruct (ind2token !! i); congruence.
Qed.

Lemma split_from_Ok {A} (flat : list A) (lengths : list nat) (offset : nat) :
  offset + sum_list lengths = length flat →
  ∃ parts, utils.split_from flat offset lengths = Ok parts
    ∧ length parts = length lengths.
Proof.
  revert offset. induction lengths as [|n lengths IH]; intros offset; simpl.
  - intros H. rewrite bool_decide_eq_true_2 by lia. by exists [].
  - intros H. destruct (IH (offset + n)) as (rest & -> & Hlen); [lia |].
    simpl. eexists. split; [done |]. simpl. by rewrite Hlen.
Qed.

Lemma length_join_chars (tokens : list str) :
  Forall (λ t, length t = 1) tokens → length (join tokens) = length tokens.
Proof.
  unfold join. induction 1 as [|t tokens Ht _ IH]; simpl; [done |].
  rewrite length_app. lia.
Qed.

Lemma zip_with_is_pair (texts preds : list str) :
  Forall is_pair (zip_with PPair texts preds).
Proof.
  revert preds. induction texts as [|t texts IH]; intros [|p preds]; simpl;
    try constructor; [by exists t, p | apply IH].
Qed.

Lemma evaluations_batch_Ok (self : OCR.t)
    (forward : list image → list (list nat)) (b : batch) :
  wf_batch self forward b →
  ∃ printed, OCR.evaluations_batch self forward b = Ok printed
    ∧ Forall is_pair printed.
Proof.
  intros (Hseq & Hsum & Hfwd). unfold OCR.evaluations_batch.
  destruct (encoding_Ok (seq b) (OCR.ind2token self)) as (tokens & -> & HF).
  { intros i [c Hc]%Hseq. eauto. }
  simpl.
  assert (length (join tokens) = length (seq b)) as Hlen.
  { rewrite length_join_chars; [symmetry; by eapply Forall2_length |].
    apply (Forall2_Forall_r _ _ _ _ HF). apply Forall_forall.
    intros i Hi t Ht. destruct (Hseq i Hi) as [c Hc]. simpl in Ht.
    pose proof (eq_trans (eq_sym Ht) Hc) as [= ->]. done. }
  destruct (split_from_Ok (join tokens) (seq_len b) 0) as (texts & Htexts & _);
    [lia |].
  unfold utils.split_text. rewrite Htexts. simpl.
  unfold utils.decode_batch_outputs.
  edestruct (mapR_Ok (λ kept, do tokens <- utils.encoding kept (OCR.ind2token self);
                              Ok (join tokens))
               (utils.greedy_decode (OCR.blank_ind self) <$> forward (images b)))
    as (labels & -> & _).
  { intros kept (raw & -> & Hraw)%list_elem_of_fmap.
    destruct (encoding_Ok (utils.greedy_decode (OCR.blank_ind self) raw)
                (OCR.ind2token self)) as (toks & -> & _).
    - intros i Hi. apply (Hfwd raw i Hraw).
      + eapply elem_of_sublist; [exact Hi | apply greedy_decode_sublist].
      + intros ->. by eapply greedy_decode_no_blank.
    - simpl. by eexists. }
  simpl. eexists. split; [done |]. apply zip_with_is_pair.
Qed.

Lemma evaluations_loop_Ok (self : OCR.t)
    (forward : list image → list (list nat)) (test_loader : list batch)
    (stdout : list pyval) :
  Forall (wf_batch self forward) test_loader →
  Forall is_pair stdout →
  ∃ out, OCR.evaluations_loop self forward test_loader stdout = Ok out
    ∧ Forall is_pair out.
Proof.
  intros Hwf. revert stdout.
  induction Hwf as [|b rest Hb _ IH]; intros stdout Hout; simpl.
  - by exists stdout.
  - destruct (evaluations_batch_Ok self forward b Hb) as (printed & -> & Hp).
    simpl. apply IH. by apply Forall_app.
Qed.

Lemma evaluations_batch_is_pair (self : OCR.t)
    (forward : list image → list (list nat)) (b : batch) (printed : list pyval) :
  OCR.evaluations_batch self forward b = Ok printed → Forall is_pair printed.
Proof.
  unfold OCR.evaluations_batch.
  destruct (utils.encoding _ _) as [tokens|e]; simpl; [|done].
  destruct (utils.split_text _ _) as [texts|e]; simpl; [|done].
  destruct (utils.decode_batch_outputs _ _ _ _) as [r|e]; simpl; [|done].
  intros [= <-]. apply zip_with_is_pair.
Qed.

Lemma evaluations_loop_is_pair (self : OCR.t)
    (forward : list image → list (list nat)) (test_loader : list batch)
    (stdout out : list pyval) :
  Forall is_pair stdout →
  OCR.evaluations_loop self forward test_loader stdout = Ok out →
  Forall is_pair out.
Proof.
  revert stdout. induction test_loader as [|b rest IH]; intros stdout Hs; simpl.
  - by intros [= <-].
  - destruct (OCR.evaluations_batch self forward b) as [printed|e] eqn:Hb;
      simpl; [|done].
    apply IH. apply Forall_app. split; [done |].
    by eapply evaluations_batch_is_pair.
Qed.

(** C10. For every test loader and either value of [each_image], whenever
    [evaluations] returns it returns [None], having printed nothing but
    pairs of a true and a predicted text; and on a loader of well-formed
    batches it does return. *)
Theorem evaluations_returns_None (self : OCR.t)
    (forward : list image → list (list nat)) (test_loader : list batch)
    (each_image : bool) :
  (∀ v stdout,
     OCR.evaluations self forward test_loader each_image = Ok (v, stdout) →
     v = PNone ∧ Forall is_pair stdout)
  ∧ (Forall (wf_batch self forward) test_loader →
     ∃ stdout,
       OCR.evaluations self forward test_loader each_image = Ok (PNone, stdout)).
Proof.
  unfold OCR.evaluations. split.
  - intros v stdout.
    destruct (OCR.evaluations_loop _ _ _ _) as [out|e] eqn:Hloop; simpl; [|done].
    intros [= <- <-]. split; [done |].
    eapply evaluations_loop_is_pair; [|exact Hloop]. constructor.
  - intros Hwf.
    destruct (evaluations_loop_Ok self forward test_loader [] Hwf)
      as (out & -> & Hout); [constructor |].
    simpl. by exists out.
Qed.

Lemma predict_pipeline_AttributeError_witness :
  predict_pipeline (model_py_OCR [] []) example_split example_world
  = Raise (AttributeError "OCR" "predict").
Proof.
  refine (proj1 (predict_pipeline_AttributeError example_split
                   (model_py_OCR [] []) example_world
                   [py "1.png"; py "2.png"] _ _ _ _
                   (model_py_OCR_no_predict [] [])
                   eq_refl eq_refl eq_refl eq_refl eq_refl eq_refl eq_refl)).
Defined.

Lemma example_batch_wf : wf_batch example_OCR example_forward example_batch.
Proof.
  split; [|split].
  - intros i Hi. simpl in Hi.
    repeat (apply elem_of_cons in Hi as [->|Hi]; [eexists; reflexivity |]).
    by apply elem_of_nil in Hi.
  - reflexivity.
  - intros raw i Hraw Hi Hne. simpl in Hraw.
    repeat (apply elem_of_cons in Hraw as [->|Hraw]);
      try (by apply elem_of_nil in Hraw);
      repeat (apply elem_of_cons in Hi as [->|Hi]);
      try (by apply elem_of_nil in Hi);
      try (by exfalso; apply Hne);
      eexists; reflexivity.
Defined.

Lemma evaluations_returns_None_witness :
  ∃ stdout,
    OCR.evaluations example_OCR example_forward [example_batch] false
    = Ok (PNone, stdout)
    ∧ Forall is_pair stdout.
Proof.
  pose proof (evaluations_returns_None example_OCR example_forward
                [example_batch] false) as [Hval Hret].
  destruct Hret as [stdout Hout].
  - constructor; [apply example_batch_wf | constructor].
  - exists stdout. split; [exact Hout | exact (proj2 (Hval _ _ Hout))].
Defined.

Example evaluations_small :
  OCR.evaluations example_OCR example_forward [example_batch] false
  = Ok (PNone, [PPair (py "ab") (py "ab"); PPair (py "b") (py "ab")]).
Proof. vm_compute. reflexivity. Qed.

(** * Further properties of the sources *)

(** ** The order of the alphabet *)

Lemma str_leb_refl (x : str) : str_leb x x = true.
Proof. induction x as [|a x IH]; simpl; [done |]. by rewrite N.compare_refl. Qed.

Lemma str_leb_total (x y : str) : str_leb x y = true ∨ str_leb y x = true.
Proof.
  revert y. induction x as [|a x IH]; intros [|b y]; simpl; auto.
  rewrite (N.compare_antisym a b).
  destruct (N.compare a b); simpl; auto.
Qed.

Lemma str_leb_antisym (x y : str) :
  str_leb x y = true → str_leb y x = true → x = y.
Proof.
  revert y. induction x as [|a x IH]; intros [|b y]; simpl; try done.
  rewrite (N.compare_antisym a b).
  destruct (N.compare_spec a b) as [->|?|?]; simpl; try done.
  intros H1 H2. f_equal. by apply IH.
Qed.

Lemma str_leb_trans (x y z : str) :
  str_leb x y = true → str_leb y z = true → str_leb x z = true.
Proof.
  revert y z. induction x as [|a x IH]; intros [|b y] [|c z]; simpl; try done.
  destruct (N.compare_spec a b) as [->|Hab|Hab]; try done.
  - destruct (N.compare_spec b c); try done. apply IH.
  - destruct (N.compare_spec b c) as [->|Hbc|Hbc]; try done.
    + intros _ _. destruct (N.compare_spec a c); [lia | done | lia].
    + intros _ _. destruct (N.compare_spec a c); [lia | done | lia].
Qed.

#[local] Instance str_le_total : Total str_le.
Proof. intros x y. apply str_leb_total. Qed.

#[local] Instance str_le_transitive : Transitive str_le.
Proof. intros x y z. apply str_leb_trans. Qed.

#[local] Instance str_le_antisymm : AntiSymm (=) str_le.
Proof. intros x y. apply str_leb_antisym. Qed.

Lemma sorted_Sorted (l : list str) : Sorted str_le (sorted l).
Proof. apply (Sorted_merge_sort str_le). Qed.

(** [sorted] does not depend on the order its argument is listed in. *)
Lemma sorted_Permutation (l k : list str) : l ≡ₚ k → sorted l = sorted k.
Proof.
  intros Hperm. apply (Sorted_unique str_le); try apply sorted_Sorted.
  unfold sorted. by rewrite !merge_sort_Permutation.
Qed.

Lemma StronglySorted_lookup_lt {A} (R : relation A) (l : list A) (i j : nat) (x y : A) :
  StronglySorted R l → i < j → l !! i = Some x → l !! j = Some y → R x y.
Proof.
  intros Hs. revert i j. induction Hs as [|a l Hs IH Hall]; intros i j Hij Hi Hj.
  - done.
  - destruct j as [|j]; [lia |]. simpl in Hj. destruct i as [|i]; simpl in Hi.
    + injection Hi as ->. eapply Forall_forall; [exact Hall |].
      by eapply list_elem_of_lookup_2.
    + eapply IH; [|done..]. lia.
Qed.

(** ** More on the dictionaries of [extract_data] *)

(** A key of [token2ind] is stored with the index of its last occurrence. *)
Lemma build_token2ind_last_occurrence (l : list str) (t : str) (i j : nat) :
  build_token2ind l !! t = Some i → l !! j = Some t → j ≤ i.
Proof.
  revert i j. induction l as [|x l IH] using rev_ind; intros i j; [done |].
  rewrite build_token2ind_snoc.
  destruct (decide (x = t)) as [->|Hne].
  - rewrite lookup_insert_eq. intros [= <-] Hj%lookup_lt_Some.
    rewrite length_app in Hj. simpl in Hj. lia.
  - rewrite lookup_insert_ne by done. intros Hi Hj.
    apply lookup_app_Some in Hj as [Hj|[_ Hj]]; [by eapply IH |].
    apply list_lookup_singleton_Some in Hj as [_ ?]. done.
Qed.

Lemma build_token2ind_NoDup (l : list str) (t : str) (i : nat) :
  NoDup l → build_token2ind l !! t = Some i ↔ l !! i = Some t.
Proof.
  intros Hnd. split; [apply build_token2ind_sound |].
  intros Hi.
  destruct (build_token2ind_complete l t) as [j Hj];
    [by eapply list_elem_of_lookup_2 |].
  rewrite Hj. f_equal. apply build_token2ind_sound in Hj.
  by eapply NoDup_lookup.
Qed.

Lemma dom_build_token2ind (l : list str) :
  dom (build_token2ind l) = list_to_set l.
Proof.
  induction l as [|x l IH] using rev_ind; [apply dom_empty_L |].
  rewrite build_token2ind_snoc, dom_insert_L, IH, list_to_set_snoc_L.
  apply leibniz_equiv. rewrite (comm (∪)). done.
Qed.

Lemma size_build_token2ind (l : list str) :
  NoDup l → size (build_token2ind l) = length l.
Proof.
  intros Hnd. rewrite <- size_dom, dom_build_token2ind.
  by apply size_list_to_set.
Qed.

Lemma vocabulary_NoDup (labels : list str) :
  NoDup (sorted (elements (collect_tokens (chars_of <$> labels)))).
Proof.
  unfold sorted. rewrite merge_sort_Permutation. apply NoDup_elements.
Qed.

Lemma extract_data_fields (annotations : list (str * str)) (blank : str)
    (e : extracted) :
  extract_data annotations blank = Ok e →
  num_classes e = size (token2ind e) ∧ paths_to_images e = annotations.*1.
Proof.
  unfold extract_data.
  destruct (mapR _ _) as [encs|?]; simpl; [|done].
  destruct (getitem _ _) as [b|?]; simpl; [|done].
  by intros [= <-].
Qed.

(** The vocabulary when the blank token is not one of its characters. *)
Lemma extract_data_fresh (annotations : list (str * str)) (blank : str) :
  (∀ s c, s ∈ annotations.*2 → c ∈ s → blank ≠ [c]) →
  ∃ e flat,
    extract_data annotations blank = Ok e
    ∧ flat = blank :: sorted (elements (collect_tokens (chars_of <$> annotations.*2)))
    ∧ NoDup flat
    ∧ num_classes e = length flat
    ∧ (∀ t i, token2ind e !! t = Some i ↔ flat !! i = Some t)
    ∧ (∀ i, ind2token e !! i = flat !! i).
Proof.
  intros Hfresh.
  destruct (extract_data_Ok annotations blank) as (e & He & Ht2i & Hi2t & _).
  eexists e, _. split; [done |]. split; [done |].
  assert (NoDup (blank :: sorted (elements (collect_tokens
            (chars_of <$> annotations.*2))))) as Hnd.
  { apply NoDup_cons. split; [|apply vocabulary_NoDup].
    intros (s & c & Hs & Hc & Heq)%elem_of_vocabulary. by eapply Hfresh. }
  split; [done |]. split; [|split].
  - destruct (extract_data_fields _ _ _ He) as [-> _].
    rewrite Ht2i. by apply size_build_token2ind.
  - intros t i. rewrite Ht2i. by apply build_token2ind_NoDup.
  - intros i. rewrite Hi2t. apply build_ind2token_lookup.
Qed.

Lemma elem_of_concat {A} (ls : list (list A)) (x : A) :
  x ∈ concat ls ↔ ∃ l, l ∈ ls ∧ x ∈ l.
Proof.
  induction ls as [|l ls IH]; simpl.
  - split; [by intros ?%elem_of_nil | by intros (? & ?%elem_of_nil & _)].
  - rewrite elem_of_app, IH. split.
    + intros [?|(l' & ? & ?)]; [exists l | exists l']; split; try done;
        [left | by right].
    + intros (l' & [->|?]%elem_of_cons & ?); [by left | right; by exists l'].
Qed.

Lemma mapR_length {A B} (f : A → result B) (l : list A) (ys : list B) :
  mapR f l = Ok ys → length ys = length l.
Proof. intros HF%mapR_inv. symmetry. by eapply Forall2_length. Qed.

Lemma getitem_Ok {V} (d : gmap str V) (key : str) (v : V) :
  getitem d key = Ok v ↔ d !! key = Some v.
Proof. unfold getitem. destruct (d !! key); split; congruence. Qed.

#[local] Instance singleton_str_inj : Inj (=) (=) (λ c : code_point, [c]).
Proof. by intros c d [= ->]. Qed.

(** X1. [extract_data] never raises; it returns the image paths in the
    order of the rows and, row by row, an encoded label as long as the
    label. *)
Theorem targets_enc_lengths (annotations : list (str * str)) (blank : str) :
  ∃ e, extract_data annotations blank = Ok e
    ∧ paths_to_images e = annotations.*1
    ∧ Forall2 (λ label enc, length enc = length label)
        annotations.*2 (targets_enc e).
Proof.
  destruct (extract_data_Ok annotations blank) as (e & He & _ & _ & _ & _ & HF).
  exists e. split; [done |]. split; [by eapply extract_data_fields |].
  eapply Forall2_impl; [exact HF |]. intros label enc Henc. simpl in Henc.
  apply mapR_length in Henc. rewrite Henc. unfold chars_of. apply length_fmap.
Qed.

(** X2. With the blank token of the source, every index of every encoded
    label lies between 1 and [num_classes - 1]: an encoded label never
    holds the blank index and never an index the network has no class
    for. *)
Theorem targets_enc_range (annotations : list (str * str)) :
  ∃ e, extract_data annotations BLANK = Ok e
    ∧ Forall (Forall (λ i, 1 ≤ i < num_classes e)) (targets_enc e).
Proof.
  destruct (extract_data_fresh annotations BLANK)
    as (e & flat & He & Hflat & Hnd & Hnum & Ht2i & _).
  { intros s c _ _. discriminate. }
  destruct (extract_data_Ok annotations BLANK) as (e' & He' & _ & _ & _ & _ & HF).
  assert (e' = e) as -> by congruence.
  exists e. split; [done |].
  eapply Forall2_Forall_r; [exact HF |]. apply Forall_forall.
  intros label _ enc Henc. simpl in Henc. apply mapR_inv in Henc.
  eapply Forall2_Forall_r; [exact Henc |]. apply Forall_forall.
  intros tok (c & -> & _)%list_elem_of_fmap i Hi. simpl in Hi.
  apply getitem_Ok, Ht2i in Hi. rename Hi into Hj. split.
  - destruct i as [|i]; [|lia]. rewrite Hflat in Hj. simpl in Hj. discriminate.
  - rewrite Hnum. by eapply lookup_lt_Some.
Qed.

(** X3. With the blank token of the source, [num_classes] is one more than
    the number of distinct characters of the labels. *)
Theorem num_classes_distinct (annotations : list (str * str)) :
  ∃ e, extract_data annotations BLANK = Ok e
    ∧ num_classes e = S (length (remove_dups (concat annotations.*2))).
Proof.
  destruct (extract_data_fresh annotations BLANK)
    as (e & flat & He & Hflat & Hnd & Hnum & _).
  { intros s c _ _. discriminate. }
  exists e. split; [done |]. rewrite Hnum, Hflat. simpl. f_equal.
  unfold sorted. rewrite merge_sort_Permutation.
  rewrite <- (length_fmap (λ c : code_point, [c])).
  apply Permutation_length, NoDup_Permutation.
  - apply NoDup_elements.
  - apply NoDup_fmap_2; [apply _ | apply NoDup_remove_dups].
  - intros t. rewrite elem_of_elements, elem_of_collect_tokens, list_elem_of_fmap.
    split.
    + intros (clist & (s & -> & Hs)%list_elem_of_fmap & (c & -> & Hc)%list_elem_of_fmap).
      exists c. split; [done |]. apply elem_of_remove_dups, elem_of_concat.
      by exists s.
    + intros (c & -> & (s & Hs & Hc)%elem_of_remove_dups%elem_of_concat).
      exists (chars_of s). split; apply list_elem_of_fmap; eauto.
Qed.

(** X4. With the blank token of the source the two dictionaries are
    inverse to each other, and the indices in use are exactly those below
    [num_classes]. *)
Theorem codec_bijection (annotations : list (str * str)) :
  ∃ e, extract_data annotations BLANK = Ok e
    ∧ (∀ t i, token2ind e !! t = Some i ↔ ind2token e !! i = Some t)
    ∧ (∀ i, is_Some (ind2token e !! i) ↔ i < num_classes e).
Proof.
  destruct (extract_data_fresh annotations BLANK)
    as (e & flat & He & Hflat & Hnd & Hnum & Ht2i & Hi2t).
  { intros s c _ _. discriminate. }
  exists e. split; [done |]. split.
  - intros t i. by rewrite Ht2i, Hi2t.
  - intros i. rewrite Hi2t, Hnum. apply lookup_lt_is_Some.
Qed.

(** X5. The indices follow the order of the characters: of two characters
    of the labels, the one with the smaller code point has the smaller
    index, and both indices are positive. *)
Theorem token2ind_monotone (annotations : list (str * str)) (s1 s2 : str)
    (c1 c2 : code_point) :
  s1 ∈ annotations.*2 → c1 ∈ s1 →
  s2 ∈ annotations.*2 → c2 ∈ s2 →
  (c1 < c2)%N →
  ∃ e i j, extract_data annotations BLANK = Ok e
    ∧ token2ind e !! [c1] = Some i
    ∧ token2ind e !! [c2] = Some j
    ∧ 0 < i < j.
Proof.
  intros Hs1 Hc1 Hs2 Hc2 Hlt.
  destruct (extract_data_fresh annotations BLANK)
    as (e & flat & He & Hflat & Hnd & Hnum & Ht2i & _).
  { intros s c _ _. discriminate. }
  assert (∀ s c, s ∈ annotations.*2 → c ∈ s →
            ∃ k, flat !! S k = Some [c]) as Hin.
  { intros s c Hs Hc. rewrite Hflat. simpl.
    apply list_elem_of_lookup_1, elem_of_vocabulary. by exists s, c. }
  destruct (Hin s1 c1 Hs1 Hc1) as [k1 Hk1].
  destruct (Hin s2 c2 Hs2 Hc2) as [k2 Hk2].
  exists e, (S k1), (S k2). split; [done |].
  split; [by apply Ht2i |]. split; [by apply Ht2i |]. split; [lia |].
  destruct (decide (S k1 < S k2)) as [|Hge]; [done | exfalso].
  rewrite Hflat in Hk1, Hk2. simpl in Hk1, Hk2.
  destruct (decide (k1 = k2)) as [->|Hne].
  - rewrite Hk1 in Hk2. injection Hk2 as ->. lia.
  - assert (str_le [c2] [c1]) as Hle.
    { eapply (StronglySorted_lookup_lt str_le _ k2 k1);
        [apply Sorted_StronglySorted; [apply _ | apply sorted_Sorted] | lia | done..]. }
    unfold str_le in Hle. simpl in Hle.
    destruct (N.compare_spec c2 c1); [lia | lia | done].
Qed.

Lemma token2ind_monotone_witness :
  ∃ e i j,
    extract_data [(py "1.png", py "cab"); (py "2.png", py "bd")] BLANK = Ok e
    ∧ token2ind e !! py "a" = Some i
    ∧ token2ind e !! py "d" = Some j
    ∧ 0 < i < j.
Proof.
  apply (token2ind_monotone [(py "1.png", py "cab"); (py "2.png", py "bd")]
           (py "cab") (py "bd")).
  - left.
  - simpl. right. left.
  - simpl. right. left.
  - simpl. right. left.
  - reflexivity.
Defined.

(** X6. The codec depends on the set of characters of the labels only:
    two annotation tables with the same characters, in whatever rows and
    row order, and whatever order the set of characters is listed in before
    it is sorted, give the same dictionaries, blank index and number of
    classes. *)
Theorem extract_data_same_characters (a1 a2 : list (str * str)) (blank : str) :
  (∀ c, (∃ s, s ∈ a1.*2 ∧ c ∈ s) ↔ (∃ s, s ∈ a2.*2 ∧ c ∈ s)) →
  ∃ e1 e2,
    extract_data a1 blank = Ok e1
    ∧ extract_data a2 blank = Ok e2
    ∧ token2ind e1 = token2ind e2
    ∧ ind2token e1 = ind2token e2
    ∧ blank_ind e1 = blank_ind e2
    ∧ num_classes e1 = num_classes e2
    ∧ (∀ listed, listed ≡ₚ elements (collect_tokens (chars_of <$> a2.*2)) →
         build_token2ind (blank :: sorted listed) = token2ind e1).
Proof.
  intros Hsame.
  destruct (extract_data_Ok a1 blank) as (e1 & He1 & Ht1 & Hi1 & _ & Hb1 & _).
  destruct (extract_data_Ok a2 blank) as (e2 & He2 & Ht2 & Hi2 & _ & Hb2 & _).
  assert (collect_tokens (chars_of <$> a1.*2) = collect_tokens (chars_of <$> a2.*2))
    as Heq.
  { apply set_eq. intros t. rewrite !elem_of_collect_tokens. split.
    - intros (clist & (s & -> & Hs)%list_elem_of_fmap & (c & -> & Hc)%list_elem_of_fmap).
      destruct (proj1 (Hsame c)) as (s' & Hs' & Hc'); [by exists s |].
      exists (chars_of s'). split; apply list_elem_of_fmap; eauto.
    - intros (clist & (s & -> & Hs)%list_elem_of_fmap & (c & -> & Hc)%list_elem_of_fmap).
      destruct (proj2 (Hsame c)) as (s' & Hs' & Hc'); [by exists s |].
      exists (chars_of s'). split; apply list_elem_of_fmap; eauto. }
  rewrite Heq in Ht1, Hi1.
  assert (token2ind e1 = token2ind e2) as Ht by congruence.
  exists e1, e2. repeat split; try done.
  - congruence.
  - rewrite Ht in Hb1. rewrite Hb1 in Hb2. by injection Hb2.
  - destruct (extract_data_fields _ _ _ He1) as [-> _].
    destruct (extract_data_fields _ _ _ He2) as [-> _]. by rewrite Ht.
  - intros listed Hperm. rewrite Ht1. by rewrite (sorted_Permutation _ _ Hperm).
Qed.

Lemma extract_data_same_characters_witness :
  ∃ e1 e2,
    extract_data [(py "1.png", py "ab"); (py "2.png", py "ba")] BLANK = Ok e1
    ∧ extract_data [(py "3.png", py "bab")] BLANK = Ok e2
    ∧ token2ind e1 = token2ind e2
    ∧ ind2token e1 = ind2token e2
    ∧ blank_ind e1 = blank_ind e2
    ∧ num_classes e1 = num_classes e2.
Proof.
  destruct (extract_data_same_characters
              [(py "1.png", py "ab"); (py "2.png", py "ba")]
              [(py "3.png", py "bab")] BLANK)
    as (e1 & e2 & H1 & H2 & H3 & H4 & H5 & H6 & _).
  - intros c. split.
    + intros (s & Hs & Hc). exists (py "bab"). split; [left |].
      simpl in Hs.
      repeat (apply elem_of_cons in Hs as [->|Hs]);
        [| |by apply elem_of_nil in Hs];
        repeat (apply elem_of_cons in Hc as [->|Hc]);
        try (by apply elem_of_nil in Hc);
        simpl; repeat ((by left) || right).
    + intros (s & Hs & Hc). exists (py "ab"). split; [left |].
      simpl in Hs.
      repeat (apply elem_of_cons in Hs as [->|Hs]);
        [|by apply elem_of_nil in Hs];
        repeat (apply elem_of_cons in Hc as [->|Hc]);
        try (by apply elem_of_nil in Hc);
        simpl; repeat ((by left) || right).
  - exists e1, e2.
    exact (conj H1 (conj H2 (conj H3 (conj H4 (conj H5 H6))))).
Defined.

(** X7. A blank token that is itself a character of the labels does not
    get index 0: [blank_ind] is the index of that character, two indices
    stand for the blank token in [ind2token], and one token is encoded by
    the index [num_classes], for which the network has no class. *)
Theorem blank_collision (annotations : list (str * str)) (s : str)
    (c : code_point) :
  s ∈ annotations.*2 → c ∈ s →
  ∃ e, extract_data annotations [c] = Ok e
    ∧ 1 ≤ blank_ind e
    ∧ token2ind e !! [c] = Some (blank_ind e)
    ∧ ind2token e !! 0 = Some [c]
    ∧ ind2token e !! blank_ind e = Some [c]
    ∧ ∃ t, token2ind e !! t = Some (num_classes e).
Proof.
  intros Hs Hc.
  destruct (extract_data_Ok annotations [c]) as (e & He & Ht2i & Hi2t & _ & Hb & _).
  set (v := sorted (elements (collect_tokens (chars_of <$> annotations.*2)))) in *.
  assert ([c] ∈ v) as Hin by (apply elem_of_vocabulary; by exists s, c).
  exists e. split; [done |].
  assert (([c] :: v) !! blank_ind e = Some [c]) as Hflat.
  { apply build_token2ind_sound. rewrite Ht2i in Hb. exact Hb. }
  split; [|split; [done |]; split; [|split]].
  - apply list_elem_of_lookup in Hin as [j Hj].
    assert (S j ≤ blank_ind e); [|lia].
    eapply (build_token2ind_last_occurrence ([c] :: v));
      [rewrite Ht2i in Hb; exact Hb | done].
  - by rewrite Hi2t, build_ind2token_lookup.
  - by rewrite Hi2t, build_ind2token_lookup.
  - assert (num_classes e = length v) as Hnum.
    { destruct (extract_data_fields _ _ _ He) as [-> _].
      rewrite Ht2i, <- size_dom, dom_build_token2ind, list_to_set_cons.
      replace ({[ [c] ]} ∪ list_to_set v) with (list_to_set (C:=gset str) v).
      - apply size_list_to_set, vocabulary_NoDup.
      - apply set_eq. intros t.
        rewrite elem_of_union, elem_of_singleton, elem_of_list_to_set.
        split; [by right | by intros [->|?]]. }
    destruct (lookup_lt_is_Some_2 ([c] :: v) (length v)) as [t Ht];
      [apply Nat.lt_succ_diag_r |].
    destruct (build_token2ind_complete ([c] :: v) t) as [i Hi];
      [by eapply list_elem_of_lookup_2 |].
    pose proof (build_token2ind_last_occurrence _ _ _ _ Hi Ht) as Hge.
    pose proof (lookup_lt_Some _ _ _ (build_token2ind_sound _ _ _ Hi)) as Hlt.
    cbn [length] in Hlt.
    assert (i = num_classes e) as Hi' by lia.
    exists t. rewrite Ht2i, <- Hi'. exact Hi.
Qed.

Lemma blank_collision_witness :
  ∃ e, extract_data [(py "1.png", py "ab")] (py "b") = Ok e
    ∧ 1 ≤ blank_ind e
    ∧ token2ind e !! py "b" = Some (blank_ind e)
    ∧ ind2token e !! 0 = Some (py "b")
    ∧ ind2token e !! blank_ind e = Some (py "b")
    ∧ ∃ t, token2ind e !! t = Some (num_classes e).
Proof.
  apply (blank_collision [(py "1.png", py "ab")] (py "ab")).
  - left.
  - simpl. right. left.
Defined.

Example blank_collision_small :
  match extract_data [(py "1.png", py "ab")] (py "b") with
  | Ok e => blank_ind e = 2 ∧ num_classes e = 2 ∧ targets_enc e = [[1; 2]]
  | Raise _ => False
  end.
Proof. vm_compute. done. Qed.

(** ** More on batches *)

Lemma torch_stack_inv (imgs out : list image) :
  torch_stack imgs = Ok out →
  out = imgs ∧ imgs ≠ [] ∧ ∀ i j, i ∈ imgs → j ∈ imgs → shape i = shape j.
Proof.
  destruct imgs as [|i0 rest]; simpl; [done |].
  destruct (forallb _ rest) eqn:Hall; [|done].
  intros [= <-]. split; [done |]. split; [done |].
  assert (∀ j, j ∈ i0 :: rest → shape j = shape i0) as Hsame.
  { intros j [->|Hj]%elem_of_cons; [done |].
    rewrite forallb_forall in Hall.
    apply list_elem_of_In, Hall in Hj. by apply bool_decide_eq_true in Hj. }
  intros i j Hi Hj. by rewrite (Hsame i), (Hsame j).
Qed.

Lemma collate_loop_KeyError (acc : collate_acc) (b : list item) :
  (∃ it, it ∈ b ∧ item_seqs it = None) →
  collate_loop acc b = Raise (KeyError (py "seqs")).
Proof.
  revert acc. induction b as [|it b IH]; intros acc (it' & Hin & Hnone).
  - by apply elem_of_nil in Hin.
  - simpl. unfold collate_step.
    destruct (item_seqs it) as [s|] eqn:Hs; simpl; [|done].
    apply IH. apply elem_of_cons in Hin as [->|Hin]; [congruence |].
    by exists it'.
Qed.

Lemma collate_loop_all_or_none (acc : collate_acc) (b : list item) :
  (∃ ss, Forall2 (λ it s, item_seqs it = Some s) b ss)
  ∨ (∃ it, it ∈ b ∧ item_seqs it = None).
Proof.
  induction b as [|it b [[ss HF]|(it' & Hin & Hnone)]].
  - left. exists []. constructor.
  - destruct (item_seqs it) as [s|] eqn:Hs.
    + left. exists (s :: ss). by constructor.
    + right. exists it. split; [left | done].
  - right. exists it'. split; [by right | done].
Qed.

(** X8. [collate_fn] returns a batch exactly on the batches that are not
    empty, whose samples all carry their encoded labels and whose images
    all have one shape. *)
Theorem collate_fn_succeeds_iff (b : list item) :
  (∃ out, collate_fn b = Ok out)
  ↔ b ≠ []
    ∧ (∀ it, it ∈ b → is_Some (item_seqs it))
    ∧ (∀ i j, i ∈ b → j ∈ b → shape (item_image i) = shape (item_image j)).
Proof.
  split.
  - intros [out Hout]. unfold collate_fn in Hout.
    destruct (collate_loop _ b) as [acc|e] eqn:Hloop; simpl in Hout; [|done].
    destruct (collate_loop_inv _ _ _ Hloop) as [ss HF].
    rewrite (collate_loop_Ok _ _ _ HF) in Hloop. injection Hloop as <-.
    simpl in Hout.
    destruct (torch_stack (item_image <$> b)) as [imgs|e] eqn:Hst;
      simpl in Hout; [|done].
    apply torch_stack_inv in Hst as (_ & Hne & Hshape).
    split; [by destruct b |]. split.
    + intros it [k Hk]%list_elem_of_lookup.
      destruct (Forall2_lookup_l _ _ _ _ _ HF Hk) as (s & _ & Hs). eauto.
    + intros i j Hi Hj. apply Hshape; apply list_elem_of_fmap; eauto.
  - intros (Hne & Hseqs & Hshape).
    destruct (collate_loop_all_or_none
                {| acc_images := []; acc_seqs := []; acc_seq_lens := [];
                   acc_images_name := [] |} b) as [[ss HF]|(it & Hin & Hnone)].
    + unfold collate_fn. rewrite (collate_loop_Ok _ _ _ HF). simpl.
      rewrite torch_stack_Ok.
      * simpl. by eexists.
      * by destruct b.
      * intros i j (x & -> & Hx)%list_elem_of_fmap (y & -> & Hy)%list_elem_of_fmap.
        by apply Hshape.
    + destruct (Hseqs it Hin) as [s Hs]. congruence.
Qed.

(** X9. [collate_fn] raises [KeyError] for ["seqs"] exactly when some
    sample of the batch has no encoded labels, whatever the images are. *)
Theorem collate_fn_KeyError_iff (b : list item) :
  collate_fn b = Raise (KeyError (py "seqs"))
  ↔ ∃ it, it ∈ b ∧ item_seqs it = None.
Proof.
  split.
  - intros Hraise.
    destruct (collate_loop_all_or_none
                {| acc_images := []; acc_seqs := []; acc_seq_lens := [];
                   acc_images_name := [] |} b) as [[ss HF]|?]; [|done].
    exfalso. unfold collate_fn in Hraise.
    rewrite (collate_loop_Ok _ _ _ HF) in Hraise. simpl in Hraise.
    destruct (item_image <$> b) as [|i rest]; simpl in Hraise; [done |].
    destruct (forallb _ rest); simpl in Hraise; done.
  - intros Hnone. unfold collate_fn.
    by rewrite (collate_loop_KeyError _ _ Hnone).
Qed.

Lemma sum_list_take_lengths (ss : list (list nat)) (k : nat) :
  sum_list (take k (length <$> ss)) = length (concat (take k ss)).
Proof.
  revert k. induction ss as [|s ss IH]; intros [|k]; csimpl; try done.
  by rewrite length_app, IH.
Qed.

Lemma concat_lookup_slice (ss : list (list nat)) (k : nat) (s : list nat) :
  ss !! k = Some s →
  take (length s) (drop (length (concat (take k ss))) (concat ss)) = s.
Proof.
  revert k. induction ss as [|s0 ss IH]; intros [|k]; simpl; try done.
  - intros [= ->]. by rewrite drop_0, take_app_length.
  - intros Hk. rewrite length_app, drop_app_add. by apply IH.
Qed.

(** X10. The batch [collate_fn] returns keeps the samples apart: the
    images and names are those of the samples in their order, and, when
    no label and no length of a label sequence exceeds 2^24 (what float32
    holds exactly), the [k]-th length is the length of the [k]-th label
    sequence, and that sequence is the piece of the flat sequence that
    starts where the earlier lengths end. *)
Theorem collate_fn_sample (b : list item) (out : tensor_batch) :
  collate_fn b = Ok out →
  (∀ it s, it ∈ b → item_seqs it = Some s →
     (Z.of_nat (length s) ≤ 2 ^ 24)%Z
     ∧ Forall (λ v, (Z.of_nat v ≤ 2 ^ 24)%Z) s) →
  tb_images out = item_image <$> b
  ∧ tb_img_name out = item_img_name <$> b
  ∧ ∀ k it, b !! k = Some it →
      ∃ s, item_seqs it = Some s
        ∧ tb_seq_len out !! k = Some (Z.of_nat (length s))
        ∧ take (length s)
            (drop (Z.to_nat (sumZ (take k (tb_seq_len out)))) (tb_seq out))
          = Z.of_nat <$> s.
Proof.
  unfold collate_fn.
  destruct (collate_loop _ b) as [acc|e] eqn:Hloop; simpl; [|done].
  destruct (collate_loop_inv _ _ _ Hloop) as [ss HF].
  rewrite (collate_loop_Ok _ _ _ HF) in Hloop. injection Hloop as <-. simpl.
  destruct (torch_stack (item_image <$> b)) as [imgs|e] eqn:Hst; simpl; [|done].
  apply torch_stack_inv in Hst as (-> & _). intros [= <-] Hexact. simpl.
  split; [done |]. split; [done |].
  assert (∀ s, s ∈ ss → (Z.of_nat (length s) ≤ 2 ^ 24)%Z
                        ∧ Forall (λ v, (Z.of_nat v ≤ 2 ^ 24)%Z) s) as Hss.
  { intros s [k Hk]%list_elem_of_lookup.
    destruct (Forall2_lookup_r _ _ _ _ _ HF Hk) as (it & Hit & Hs).
    eapply Hexact; [by eapply list_elem_of_lookup_2 | done]. }
  rewrite !int_tensor_exact.
  - intros k it Hk.
    destruct (Forall2_lookup_l _ _ _ _ _ HF Hk) as (s & Hs & Hseq).
    exists s. split; [done |]. split.
    + by rewrite !list_lookup_fmap, Hs.
    + rewrite <- fmap_take, sumZ_of_nat, Nat2Z.id, sum_list_take_lengths.
      rewrite <- fmap_drop, <- fmap_take. f_equal.
      by apply concat_lookup_slice.
  - apply Forall_forall. intros v (s & Hs & Hv)%elem_of_concat.
    destruct (Hss s Hs) as [_ Hall]. rewrite Forall_forall in Hall. by apply Hall.
  - apply Forall_fmap, Forall_forall. intros s Hs. simpl. by apply Hss.
Qed.

Lemma collate_fn_sample_witness :
  ∃ out,
    collate_fn [ {| item_image := {| shape := [1; 50; 200] |};
                    item_img_name := py "a.png"; item_seqs := Some [3; 1; 2] |};
                 {| item_image := {| shape := [1; 50; 200] |};
                    item_img_name := py "b.png"; item_seqs := Some [2; 4] |} ]
      = Ok out
    ∧ tb_img_name out = [py "a.png"; py "b.png"]
    ∧ take 2 (drop (Z.to_nat (sumZ (take 1 (tb_seq_len out)))) (tb_seq out))
      = [2%Z; 4%Z].
Proof.
  destruct (collate_fn _) as [out|e] eqn:Hout; [|discriminate Hout].
  exists out. split; [done |].
  destruct (collate_fn_sample _ out Hout) as (_ & Hn & Hk).
  - intros it s Hit Hs.
    apply elem_of_cons in Hit as [->|Hit];
      [injection Hs as <-; split; [simpl; lia | repeat constructor; lia] |].
    apply elem_of_cons in Hit as [->|Hit];
      [injection Hs as <-; split; [simpl; lia | repeat constructor; lia] |].
    by apply elem_of_nil in Hit.
  - split; [exact Hn |].
    destruct (Hk 1 _ eq_refl) as (s & Hs & _ & Hslice).
    injection Hs as <-. exact Hslice.
Defined.

Lemma foldl_collate_predict_step (acc : list image * list str) (b : list item) :
  foldl collate_predict_step acc b
  = (acc.1 ++ (item_image <$> b), acc.2 ++ (item_img_name <$> b)).
Proof.
  revert acc. induction b as [|it b IH]; intros [imgs names]; simpl.
  - by rewrite !app_nil_r.
  - rewrite IH. simpl. by rewrite <- !app_assoc.
Qed.

(** X11. [collate_fn_predict] never looks at the labels: it returns a batch
    exactly on the batches that are not empty and whose images have one
    shape, and the batch holds the images and names of the samples in
    their order. *)
Theorem collate_fn_predict_spec (b : list item) :
  ((∃ out, collate_fn_predict b = Ok out)
   ↔ b ≠ []
     ∧ ∀ i j, i ∈ b → j ∈ b → shape (item_image i) = shape (item_image j))
  ∧ (∀ out, collate_fn_predict b = Ok out →
       pb_images out = item_image <$> b ∧ pb_img_name out = item_img_name <$> b).
Proof.
  unfold collate_fn_predict. rewrite foldl_collate_predict_step. simpl.
  split; [split |].
  - intros [out Hout].
    destruct (torch_stack (item_image <$> b)) as [imgs|e] eqn:Hst;
      simpl in Hout; [|done].
    apply torch_stack_inv in Hst as (_ & Hne & Hshape).
    split; [by destruct b |].
    intros i j Hi Hj. apply Hshape; apply list_elem_of_fmap; eauto.
  - intros [Hne Hshape]. rewrite torch_stack_Ok.
    + simpl. by eexists.
    + by destruct b.
    + intros i j (x & -> & Hx)%list_elem_of_fmap (y & -> & Hy)%list_elem_of_fmap.
      by apply Hshape.
  - intros out.
    destruct (torch_stack (item_image <$> b)) as [imgs|e] eqn:Hst; simpl; [|done].
    apply torch_stack_inv in Hst as (-> & _). by intros [= <-].
Qed.

(** ** Runs of [train] *)

Lemma float_gt_trans (a b c : pyfloat) :
  float_gt a b = true → float_gt b c = true → float_gt a c = true.
Proof.
  destruct a as [x| | |], b as [y| | |], c as [z| | |]; simpl; try done.
  destruct (Qlt_le_dec y x) as [Hyx|]; [|done].
  destruct (Qlt_le_dec z y) as [Hzy|]; [|done].
  destruct (Qlt_le_dec z x) as [|Hxz]; [done |].
  intros _ _. exfalso. eapply Qlt_irrefl, Qlt_trans; [exact Hzy |].
  eapply Qlt_le_trans; [exact Hyx | exact Hxz].
Qed.

(** If [e] is not below [a] and [b] is below [a], then [e] is not below
    [b]. *)
Lemma float_gt_not_below (a b e : pyfloat) :
  float_gt a e = false → float_gt a b = true → float_gt b e = false.
Proof.
  destruct a as [x| | |], b as [y| | |], e as [z| | |]; simpl; try done.
  destruct (Qlt_le_dec z x) as [|Hxz]; [done |].
  destruct (Qlt_le_dec y x) as [Hyx|]; [|done].
  destruct (Qlt_le_dec z y) as [Hzy|]; [|done].
  intros _ _. exfalso. eapply Qlt_irrefl, Qlt_trans; [exact Hzy |].
  eapply Qlt_le_trans; [exact Hyx | exact Hxz].
Qed.

Lemma train_cons (self : OCR.t) (fs : filesystem) (ep : epoch_pair)
    (eps : list epoch_pair) (save_checkpoint : bool) :
  OCR.train self fs (ep :: eps) save_checkpoint
  = do st <- OCR.train_epoch save_checkpoint (self, fs) ep;
    OCR.train st.1 st.2 eps save_checkpoint.
Proof. done. Qed.

(** What one epoch does, in the terms the runs are described in. *)
Lemma train_epoch_cases (save_checkpoint : bool) (self : OCR.t)
    (fs : filesystem) (ep : epoch_pair) :
  ∃ r, OCR.train_epoch save_checkpoint (self, fs) ep = Ok r
    ∧ OCR._epoch r.1 = OCR._epoch self + 1
    ∧ ((save_checkpoint = true
        ∧ float_gt (OCR._eval_loss self) (eval_loss ep) = true
        ∧ OCR._eval_loss r.1 = eval_loss ep
        ∧ r.2 = fs ++ [improved_checkpoint self ep])
       ∨ ((save_checkpoint = false
           ∨ float_gt (OCR._eval_loss self) (eval_loss ep) = false)
          ∧ OCR._eval_loss r.1 = OCR._eval_loss self
          ∧ r.2 = fs)).
Proof.
  unfold OCR.train_epoch. simpl.
  destruct save_checkpoint; simpl.
  - destruct (float_gt (OCR._eval_loss self) (eval_loss ep)) eqn:Hgt; simpl.
    + eexists. split; [reflexivity |]. split; [done |]. left. done.
    + eexists. split; [reflexivity |]. split; [done |].
      right. split; [by right | done].
  - eexists. split; [reflexivity |]. split; [done |].
    right. split; [by left | done].
Qed.

(** The invariants of a run with checkpoints on. *)
Lemma train_run (eps : list epoch_pair) (self : OCR.t) (fs : filesystem) :
  ∃ r new,
    OCR.train self fs eps true = Ok r
    ∧ r.2 = fs ++ new
    ∧ OCR._epoch r.1 = OCR._epoch self + length eps
    ∧ StronglySorted ckpt_before new
    ∧ Forall (λ x, ckpt_consistent x
                   ∧ OCR._epoch self < name_epoch x.1 ≤ OCR._epoch self + length eps
                   ∧ float_gt (OCR._eval_loss self) (name_loss x.1) = true
                   ∧ (∃ ep, ep ∈ eps ∧ name_loss x.1 = eval_loss ep)) new
    ∧ OCR._eval_loss r.1 = from_option (λ x, name_loss x.1) (OCR._eval_loss self) (last new)
    ∧ Forall (λ ep, float_gt (OCR._eval_loss r.1) (eval_loss ep) = false) eps.
Proof.
  revert self fs. induction eps as [|ep eps IH]; intros self fs.
  - exists (self, fs), []. simpl. rewrite app_nil_r, Nat.add_0_r.
    repeat split; constructor.
  - rewrite train_cons.
    destruct (train_epoch_cases true self fs ep) as (st & -> & Hep & Hcases).
    cbn [rbind].
    destruct (IH st.1 st.2)
      as (r & new & -> & Hfs & Hepoch & Hsorted & Hall & Hlast & Hmin).
    exists r.
    assert (OCR._eval_loss r.1 = OCR._eval_loss st.1
            ∨ float_gt (OCR._eval_loss st.1) (OCR._eval_loss r.1) = true) as Hfinal.
    { rewrite Hlast. destruct (last new) as [x|] eqn:Hx; simpl; [|by left].
      right. apply last_Some_elem_of in Hx.
      rewrite Forall_forall in Hall. by destruct (Hall x Hx) as (_ & _ & ? & _). }
    destruct Hcases as [(_ & Hgt & Hloss & Hst)|(Hno & Hloss & Hst)].
    + exists (improved_checkpoint self ep :: new).
      split; [done |].
      split; [rewrite Hfs, Hst; by rewrite <- app_assoc |].
      split; [rewrite Hepoch, Hep; simpl; lia |].
      split; [|split; [|split]].
      * constructor; [done |].
        eapply Forall_impl; [exact Hall |].
        intros x (_ & [Hlo _] & Hx & _). split; simpl.
        -- by rewrite <- Hloss.
        -- lia.
      * constructor.
        -- split; [repeat split; simpl; eauto |].
           split; [simpl; lia |]. split; [done |].
           exists ep. split; [left | done].
        -- eapply Forall_impl; [exact Hall |].
           intros x (Hc & [Hlo Hhi] & Hx & (ep' & Hin & Heq)).
           split; [done |]. split; [simpl; lia |]. split.
           ++ eapply float_gt_trans; [exact Hgt |]. by rewrite <- Hloss.
           ++ exists ep'. split; [by right | done].
      * rewrite Hlast. destruct new as [|y new']; [exact Hloss |].
        rewrite last_cons_cons.
        destruct (last_is_Some (y :: new')) as [_ [x ->]]; done.
      * constructor; [|done].
        destruct Hfinal as [->|Hlt].
        -- rewrite Hloss. apply float_gt_irrefl.
        -- eapply float_gt_not_below; [|exact Hlt].
           rewrite Hloss. apply float_gt_irrefl.
    + destruct Hno as [?|Hno]; [done |].
      exists new.
      split; [done |].
      split; [by rewrite Hfs, Hst |].
      split; [rewrite Hepoch, Hep; simpl; lia |].
      split; [done |]. split; [|split].
      * eapply Forall_impl; [exact Hall |].
        intros x (Hc & [Hlo Hhi] & Hx & (ep' & Hin & Heq)).
        split; [done |]. split; [simpl; lia |]. split.
        -- by rewrite <- Hloss.
        -- exists ep'. split; [by right | done].
      * by rewrite Hlast, Hloss.
      * constructor; [|done].
        destruct Hfinal as [->|Hlt].
        -- by rewrite Hloss.
        -- eapply float_gt_not_below; [|exact Hlt]. by rewrite Hloss.
Qed.

(** X12. A run of [train] with [save_checkpoint=False] writes no file and
    leaves the best-seen loss as it was, however the validation losses
    fall; the epoch counter still advances by the number of epochs. *)
Theorem train_without_checkpoints (eps : list epoch_pair) (self : OCR.t)
    (fs : filesystem) :
  ∃ r, OCR.train self fs eps false = Ok r
    ∧ r.2 = fs
    ∧ OCR._eval_loss r.1 = OCR._eval_loss self
    ∧ OCR._epoch r.1 = OCR._epoch self + length eps.
Proof.
  revert self fs. induction eps as [|ep eps IH]; intros self fs.
  - exists (self, fs). simpl. by rewrite Nat.add_0_r.
  - rewrite train_cons.
    destruct (train_epoch_cases false self fs ep) as (st & -> & Hep & Hcases).
    cbn [rbind].
    destruct (IH st.1 st.2) as (r & -> & Hfs & Hloss & Hepoch).
    exists r. split; [done |].
    destruct Hcases as [(? & _)|(_ & Hl & Hf)]; [done |].
    rewrite Hfs, Hloss, Hepoch, Hep, Hl, Hf. simpl. repeat split; lia.
Qed.

(** X13. After a run of [train] with checkpoints on, the best-seen loss is
    the least loss seen: no epoch of the run had a validation loss strictly
    below it, and it is either the loss the run started with or the
    validation loss of one of its epochs, strictly below the starting
    one. *)
Theorem train_best_loss (eps : list epoch_pair) (self : OCR.t) (fs : filesystem) :
  ∃ r, OCR.train self fs eps true = Ok r
    ∧ Forall (λ ep, float_lt (eval_loss ep) (OCR._eval_loss r.1) = false) eps
    ∧ (OCR._eval_loss r.1 = OCR._eval_loss self
       ∨ (float_lt (OCR._eval_loss r.1) (OCR._eval_loss self) = true
          ∧ ∃ ep, ep ∈ eps ∧ OCR._eval_loss r.1 = eval_loss ep)).
Proof.
  destruct (train_run eps self fs)
    as (r & new & Hr & _ & _ & _ & Hall & Hlast & Hmin).
  exists r. split; [done |]. split; [exact Hmin |].
  rewrite Hlast. destruct (last new) as [x|] eqn:Hx; simpl; [|by left].
  right. apply last_Some_elem_of in Hx. rewrite Forall_forall in Hall.
  destruct (Hall x Hx) as (_ & _ & Hgt & Hep). done.
Qed.

Lemma train_run_length (eps : list epoch_pair) (self : OCR.t) (fs : filesystem)
    (save_checkpoint : bool) (r : OCR.t * filesystem) :
  OCR.train self fs eps save_checkpoint = Ok r →
  length r.2 ≤ length fs + length eps.
Proof.
  revert self fs. induction eps as [|ep eps IH]; intros self fs.
  - intros [= <-]. simpl. lia.
  - rewrite train_cons.
    destruct (train_epoch_cases save_checkpoint self fs ep)
      as (st & -> & _ & Hcases).
    cbn [rbind]. intros Hr%IH.
    destruct Hcases as [(_ & _ & _ & Hst)|(_ & _ & Hst)];
      rewrite Hst in Hr; rewrite ?length_app in Hr; simpl in *; lia.
Qed.

(** X14. The files a run of [train] writes, in the order of writing: there
    are at most as many as epochs, their losses strictly fall and their
    epoch numbers strictly rise, so no two have one name; each is
    named after the epoch and loss stored in it, holds the model and the
    optimiser state, has an epoch number among those of the run and a loss
    strictly below the one the run started with. *)
Theorem train_checkpoints (eps : list epoch_pair) (self : OCR.t) (fs : filesystem) :
  ∃ r new,
    OCR.train self fs eps true = Ok r
    ∧ r.2 = fs ++ new
    ∧ length new ≤ length eps
    ∧ StronglySorted ckpt_before new
    ∧ Forall (λ x, ckpt_consistent x
                   ∧ OCR._epoch self < name_epoch x.1 ≤ OCR._epoch self + length eps
                   ∧ float_lt (name_loss x.1) (OCR._eval_loss self) = true) new
    ∧ OCR._epoch r.1 = OCR._epoch self + length eps.
Proof.
  destruct (train_run eps self fs)
    as (r & new & Hr & Hfs & Hepoch & Hsorted & Hall & _).
  exists r, new. split; [done |]. split; [done |].
  split; [|split; [done |]; split; [|done]].
  - pose proof (train_run_length eps self fs true r Hr) as Hlen.
    rewrite Hfs, length_app in Hlen. lia.
  - eapply Forall_impl; [exact Hall |]. intros x (? & ? & ? & _). done.
Qed.

(** X15. While no epoch has a validation loss strictly below the best-seen
    loss, [train] writes nothing and keeps the best-seen loss; so it is
    when the best-seen loss is a NaN, which no loss is below. *)
Theorem train_no_improvement (eps : list epoch_pair) (self : OCR.t)
    (fs : filesystem) (save_checkpoint : bool) :
  Forall (λ ep, float_lt (eval_loss ep) (OCR._eval_loss self) = false) eps →
  ∃ r, OCR.train self fs eps save_checkpoint = Ok r
    ∧ r.2 = fs
    ∧ OCR._eval_loss r.1 = OCR._eval_loss self.
Proof.
  revert self fs. induction eps as [|ep eps IH]; intros self fs Hall.
  { by exists (self, fs). }
  apply Forall_cons in Hall as [Hep Hall]. rewrite train_cons.
  destruct (train_epoch_cases save_checkpoint self fs ep)
    as (st & -> & _ & Hcases).
  cbn [rbind].
  destruct Hcases as [(_ & Hgt & _)|(_ & Hl & Hf)].
  { unfold float_lt in Hep. congruence. }
  destruct (IH st.1 st.2) as (r & -> & Hfs & Hloss).
  { by rewrite Hl. }
  exists r. by rewrite Hfs, Hloss, Hl, Hf.
Qed.

Lemma train_no_improvement_witness :
  let self := OCR.set_eval_loss NaN example_OCR in
  let eps := [ {| new_model := []; new_optimizer := [];
                  train_loss := Finite 2; eval_loss := Finite 1 |};
               {| new_model := []; new_optimizer := [];
                  train_loss := Finite 1; eval_loss := NInf |} ] in
  ∃ r, OCR.train self [] eps true = Ok r
    ∧ r.2 = []
    ∧ OCR._eval_loss r.1 = NaN.
Proof.
  intros self eps. apply (train_no_improvement eps self [] true).
  repeat constructor.
Defined.

(** X16. What [save] writes, [load] reads back.  [save] under a name with
    a directory part appends one file, named so, that holds the dictionary
    of the object; under a name without one it raises [FileNotFoundError]
    and writes nothing.  From the dictionary written with [training=True],
    [load] into an object of the same network (the same names and shapes
    of parameters, that is also the same number of classes) and of an
    optimiser with groups of the same sizes restores the parameters, the
    optimiser state, the epoch counter and the best-seen loss; from the one
    written with [training=False] it restores the parameters only and
    leaves the other three as they were in the object. *)
Theorem save_load_roundtrip (self other : OCR.t) (name : ckpt_name)
    (training : bool) (fs : filesystem) :
  NoDup (OCR.model self).*1 →
  layout (OCR.model other) = layout (OCR.model self) →
  group_sizes (OCR._optimizer other) = group_sizes (OCR._optimizer self) →
  OCR.save self name training fs
  = (if bool_decide (name_dir name = "") then Raise (FileNotFoundError "")
     else Ok (fs ++ [(name, saved_state self training)]))
  ∧ ∃ self',
      OCR.load other (saved_state self training) = Ok self'
      ∧ OCR.model self' = OCR.model self
      ∧ OCR._optimizer self' = OCR._optimizer (if training then self else other)
      ∧ OCR._epoch self' = OCR._epoch (if training then self else other)
      ∧ OCR._eval_loss self' = OCR._eval_loss (if training then self else other)
      ∧ OCR.ind2token self' = OCR.ind2token other
      ∧ OCR.blank_ind self' = OCR.blank_ind other.
Proof.
  intros Hnd Hlay Hopt. split.
  - unfold OCR.save, saved_state.
    destruct (name_dir name) as [|c d]; [done |].
    rewrite bool_decide_eq_false_2 by done. by destruct training.
  - destruct training.
    + eexists. split; [by apply load_saved_state |]. done.
    + eexists. split; [by apply load_model_only |]. done.
Qed.

Lemma save_load_roundtrip_witness :
  let w := {| t_shape := [2; 2]; t_values := [1; 0; 0; 1]%Q |} in
  let v := {| t_shape := [2; 2]; t_values := [0; 0; 0; 0]%Q |} in
  let g := {| group_options := [("lr", 1 # 1000)]; group_params := [[]] |} in
  let self := OCR.set_epoch 3 (OCR.set_eval_loss (Finite (1 # 2))
                (OCR.__init__ [("linear.weight", w)] [g] BLANK 0 ∅ ∅)) in
  let other := OCR.__init__ [("linear.weight", v)] [g] BLANK 0 ∅ ∅ in
  let name := {| name_dir := "./model/checkpoints/"; name_epoch := 3;
                 name_loss := Finite (1 # 2) |} in
  OCR.save self name true [] = Ok [(name, saved_state self true)]
  ∧ ∃ self', OCR.load other (saved_state self true) = Ok self'
      ∧ OCR.model self' = [("linear.weight", w)]
      ∧ OCR._epoch self' = 3
      ∧ OCR._eval_loss self' = Finite (1 # 2).
Proof.
  intros w v g self other name.
  assert (NoDup (OCR.model self).*1) as Hnd
    by (apply NoDup_singleton).
  destruct (save_load_roundtrip self other name true [] Hnd eq_refl eq_refl)
    as (Hsave & self' & Hload & Hm & _ & He & Hl & _).
  split; [exact Hsave |].
  exists self'. split; [exact Hload |]. split; [exact Hm |].
  split; [exact He | exact Hl].
Defined.


(** X18. Resuming: after [load] of a checkpoint that [save] wrote with the
    training information, every checkpoint a further run of [train] writes
    has an epoch number above the stored one and a loss strictly below the
    stored one; and the checkpoint does load into an object of the same
    network and of an optimiser with groups of the same sizes. *)
Theorem resume_training (self other : OCR.t) (eps : list epoch_pair)
    (fs : filesystem) :
  (∀ resumed, OCR.load other (saved_state self true) = Ok resumed →
     ∃ r new,
       OCR.train resumed fs eps true = Ok r
       ∧ r.2 = fs ++ new
       ∧ Forall (λ x, OCR._epoch self < name_epoch x.1
                      ∧ float_lt (name_loss x.1) (OCR._eval_loss self) = true
                      ∧ epoch x.2 = Some (name_epoch x.1)) new)
  ∧ (NoDup (OCR.model self).*1 →
     layout (OCR.model other) = layout (OCR.model self) →
     group_sizes (OCR._optimizer other) = group_sizes (OCR._optimizer self) →
     ∃ resumed, OCR.load other (saved_state self true) = Ok resumed).
Proof.
  split.
  - intros resumed Hload.
    apply load_Ok in Hload as (_ & _ & _ & He & Hl & _). simpl in He, Hl.
    destruct (train_run eps resumed fs) as (r & new & Hr & Hfs & _ & _ & Hall & _).
    exists r, new. split; [done |]. split; [done |].
    eapply Forall_impl; [exact Hall |].
    intros x ((Hx & _) & [Hlo _] & Hgt & _). rewrite He in Hlo.
    rewrite Hl in Hgt. done.
  - intros Hnd Hlay Hopt. eexists. by apply load_saved_state.
Qed.

Lemma resume_training_witness :
  let self := OCR.set_epoch 3 (OCR.set_eval_loss (Finite 1) example_OCR) in
  let eps := [ {| new_model := []; new_optimizer := [];
                  train_loss := Finite 1; eval_loss := Finite (1 # 2) |} ] in
  ∃ resumed r new,
    OCR.load example_OCR (saved_state self true) = Ok resumed
    ∧ OCR.train resumed [] eps true = Ok r
    ∧ r.2 = [] ++ new
    ∧ Forall (λ x, 3 < name_epoch x.1) new.
Proof.
  intros self eps.
  destruct (resume_training self example_OCR eps []) as [Hrun Hload].
  destruct Hload as [resumed Hresumed]; [constructor | done | done |].
  destruct (Hrun resumed Hresumed) as (r & new & Hr & Hfs & Hall).
  exists resumed, r, new. split; [done |]. split; [done |]. split; [done |].
  eapply Forall_impl; [exact Hall |]. intros x (Hlo & _). exact Hlo.
Defined.

(** ** The shapes the network accepts *)

Section shapes.
Import CNN_GRU.

Lemma window_out_7_2_3 (n : nat) :
  window_out n 7 2 3 = if bool_decide (n = 0)
                       then Raise (RuntimeError "Kernel size can't be greater than actual input size")
                       else Ok ((n + 1) / 2).
Proof.
  unfold window_out. repeat case_bool_decide; try lia; try done.
  f_equal. replace (n + 2 * 3 - 7) with (n - 1) by lia.
  replace (n + 1) with (n - 1 + 1 * 2) by lia.
  by rewrite Nat.div_add.
Qed.

Lemma window_out_3_2_1 (n : nat) :
  window_out n 3 2 1 = if bool_decide (n = 0)
                       then Raise (RuntimeError "Kernel size can't be greater than actual input size")
                       else Ok ((n + 1) / 2).
Proof.
  unfold window_out. repeat case_bool_decide; try lia; try done.
  f_equal. replace (n + 2 * 1 - 3) with (n - 1) by lia.
  replace (n + 1) with (n - 1 + 1 * 2) by lia.
  by rewrite Nat.div_add.
Qed.

Lemma window_out_3_1_1 (n : nat) :
  window_out n 3 1 1 = if bool_decide (n = 0)
                       then Raise (RuntimeError "Kernel size can't be greater than actual input size")
                       else Ok n.
Proof.
  unfold window_out. repeat case_bool_decide; try lia; try done.
  f_equal. rewrite Nat.div_1_r. lia.
Qed.

Lemma half_half (n : nat) : ((n + 1) / 2 + 1) / 2 = (n + 3) / 4.
Proof.
  replace 4 with (2 * 2) by done. rewrite <- Nat.Div0.div_div.
  f_equal. replace (n + 3) with (n + 1 + 1 * 2) by lia.
  by rewrite Nat.div_add.
Qed.

Lemma half_pos (n : nat) : 1 ≤ n → 1 ≤ (n + 1) / 2.
Proof.
  intros Hn. replace (n + 1) with (n - 1 + 1 * 2) by lia.
  rewrite Nat.div_add by done. lia.
Qed.

(** The convolutional block on a batch of images. *)
Lemma conv_layers_shape (training : bool) (bs c h w : nat) (s : list nat) :
  conv_layers training [bs; c; h; w] = Ok s →
  c = 1 ∧ 1 ≤ h ∧ 1 ≤ w ∧ s = [bs; 64; (h + 3) / 4; (w + 3) / 4].
Proof.
  unfold conv_layers, Conv2d at 1. case_bool_decide as Hc; [|done].
  rewrite !window_out_7_2_3. case_bool_decide as Hh; [done |].
  cbn [rbind]. case_bool_decide as Hw; [done |]. cbn [rbind].
  unfold BatchNorm2d at 1. rewrite bool_decide_eq_true_2 by done.
  destruct (training && _); [done |]. cbn [rbind].
  unfold MaxPool2d. rewrite !window_out_3_2_1.
  pose proof (half_pos h) as Hh1. pose proof (half_pos w) as Hw1.
  rewrite !bool_decide_eq_false_2 by lia. cbn [rbind].
  rewrite !half_half.
  assert (1 ≤ (h + 3) / 4) as Hh2 by (rewrite <- half_half; apply half_pos; lia).
  assert (1 ≤ (w + 3) / 4) as Hw2 by (rewrite <- half_half; apply half_pos; lia).
  unfold Conv2d at 1. rewrite bool_decide_eq_true_2 by done.
  rewrite !window_out_3_1_1, !bool_decide_eq_false_2 by lia. cbn [rbind].
  unfold BatchNorm2d at 1. rewrite bool_decide_eq_true_2 by done.
  destruct (training && _); [done |]. cbn [rbind].
  unfold Conv2d. rewrite bool_decide_eq_true_2 by done.
  rewrite !window_out_3_1_1, !bool_decide_eq_false_2 by lia. cbn [rbind].
  unfold BatchNorm2d. rewrite bool_decide_eq_true_2 by done.
  destruct (training && _); [done |]. cbn [rbind].
  intros [= <-]. repeat split; lia.
Qed.

Lemma conv_layers_Ok (training : bool) (bs h w : nat) :
  1 ≤ h → 1 ≤ w →
  bs * ((h + 1) / 2) * ((w + 1) / 2) ≠ 1 →
  bs * ((h + 3) / 4) * ((w + 3) / 4) ≠ 1 →
  conv_layers training [bs; 1; h; w] = Ok [bs; 64; (h + 3) / 4; (w + 3) / 4].
Proof.
  intros Hh Hw Hn1 Hn2.
  unfold conv_layers, Conv2d at 1. rewrite bool_decide_eq_true_2 by done.
  rewrite !window_out_7_2_3, !bool_decide_eq_false_2 by lia. cbn [rbind].
  unfold BatchNorm2d at 1. rewrite bool_decide_eq_true_2 by done.
  rewrite (bool_decide_eq_false_2 (_ = 1)) by done. rewrite andb_false_r.
  cbn [rbind].
  unfold MaxPool2d. rewrite !window_out_3_2_1.
  pose proof (half_pos h Hh) as Hh1. pose proof (half_pos w Hw) as Hw1.
  rewrite !bool_decide_eq_false_2 by lia. cbn [rbind].
  rewrite !half_half.
  assert (1 ≤ (h + 3) / 4) as Hh2 by (rewrite <- half_half; apply half_pos; lia).
  assert (1 ≤ (w + 3) / 4) as Hw2 by (rewrite <- half_half; apply half_pos; lia).
  unfold Conv2d at 1. rewrite bool_decide_eq_true_2 by done.
  rewrite !window_out_3_1_1, !bool_decide_eq_false_2 by lia. cbn [rbind].
  unfold BatchNorm2d at 1. rewrite bool_decide_eq_true_2 by done.
  rewrite (bool_decide_eq_false_2 (_ = 1)) by done. rewrite andb_false_r.
  cbn [rbind].
  unfold Conv2d. rewrite bool_decide_eq_true_2 by done.
  rewrite !window_out_3_1_1, !bool_decide_eq_false_2 by lia. cbn [rbind].
  unfold BatchNorm2d. rewrite bool_decide_eq_true_2 by done.
  rewrite (bool_decide_eq_false_2 (_ = 1)) by done. rewrite andb_false_r.
  done.
Qed.

Lemma quarter_13 (h : nat) : (h + 3) / 4 = 13 ↔ 49 ≤ h ≤ 52.
Proof.
  split.
  - intros H. pose proof (Nat.div_mod_eq (h + 3) 4) as Hd.
    pose proof (Nat.mod_upper_bound (h + 3) 4). lia.
  - intros [Hlo Hhi]. symmetry. apply (Nat.div_unique _ _ _ (h + 3 - 52)); lia.
Qed.

End shapes.

(** X19. [CNN_GRU.forward], in training or evaluation mode, goes through
    on a non-empty batch of images exactly when they have one channel, a
    height from 49 to 52 and a width of at least 1; what it returns is
    time-major with floor((width + 3) / 4) time steps, the batch size and
    [output_size] scores.  The images of [train_pipeline], resized to
    50 x 200, give 50 time steps. *)
Theorem forward_shape (training : bool) (output_size bs c h w : nat) :
  1 ≤ bs →
  ((∃ s, CNN_GRU.forward training output_size [bs; c; h; w] = Ok s)
   ↔ c = 1 ∧ 49 ≤ h ≤ 52 ∧ 1 ≤ w)
  ∧ (∀ s, CNN_GRU.forward training output_size [bs; c; h; w] = Ok s →
       s = [(w + 3) / 4; bs; output_size])
  ∧ CNN_GRU.forward training output_size [bs; 1; 50; 200]
    = Ok [50; bs; output_size].
Proof.
  intros Hbs.
  assert (∀ s, CNN_GRU.forward training output_size [bs; c; h; w] = Ok s →
            c = 1 ∧ 49 ≤ h ≤ 52 ∧ 1 ≤ w ∧ s = [(w + 3) / 4; bs; output_size])
    as Hinv.
  { intros s. unfold CNN_GRU.forward.
    destruct (CNN_GRU.conv_layers training [bs; c; h; w]) as [x|e] eqn:Hconv;
      cbn [rbind]; [|done].
    apply conv_layers_shape in Hconv as (-> & Hh & Hw & ->).
    case_bool_decide; [done |].
    unfold CNN_GRU.Linear at 1. case_bool_decide as H832; [|done].
    cbn [rbind]. unfold CNN_GRU.GRU. rewrite bool_decide_eq_true_2 by done.
    cbn [rbind]. unfold CNN_GRU.Linear. rewrite bool_decide_eq_true_2 by done.
    cbn [rbind]. intros [= <-].
    assert ((h + 3) / 4 = 13) as H13%quarter_13 by lia. done. }
  assert (∀ h' w', 49 ≤ h' ≤ 52 → 1 ≤ w' →
            CNN_GRU.forward training output_size [bs; 1; h'; w']
            = Ok [(w' + 3) / 4; bs; output_size]) as Hok.
  { intros h' w' Hh' Hw'. unfold CNN_GRU.forward.
    pose proof (proj2 (quarter_13 h') Hh') as H13.
    assert (1 ≤ (w' + 3) / 4) as Hw2 by (rewrite <- half_half; apply half_pos, half_pos; lia).
    assert (25 ≤ (h' + 1) / 2) as Hh1.
    { replace (h' + 1) with (h' - 49 + 25 * 2) by lia.
      rewrite Nat.div_add by done. lia. }
    pose proof (half_pos w' Hw') as Hw1.
    rewrite conv_layers_Ok; [|lia|lia|nia|nia].
    cbn [rbind]. rewrite H13.
    rewrite bool_decide_eq_false_2 by nia.
    reflexivity. }
  split; [split |split].
  - intros [s Hs]. apply Hinv in Hs as (? & ? & ? & _). done.
  - intros (-> & Hh & Hw). eexists. by apply Hok.
  - intros s Hs. by apply Hinv in Hs as (_ & _ & _ & ->).
  - rewrite Hok by lia. reflexivity.
Qed.

Lemma forward_shape_witness :
  CNN_GRU.forward true 37 [16; 1; 50; 200] = Ok [50; 16; 37].
Proof.
  destruct (forward_shape true 37 16 1 50 200) as (_ & _ & H); [lia |].
  exact H.
Defined.

(** ** The annotation tools *)

Section annotation_tools.
Import data.

Lemma split_char_not_nil (sep : code_point) (s : str) : split_char sep s ≠ [].
Proof.
  induction s as [|c s IH]; simpl; [done |].
  case_bool_decide; [done |]. by destruct (split_char sep s).
Qed.

Lemma split_char_no_sep (sep : code_point) (s : str) :
  sep ∉ s → split_char sep s = [s].
Proof.
  induction s as [|c s IH]; simpl; [done |].
  intros Hnotin. apply not_elem_of_cons in Hnotin as [Hne Hnotin].
  rewrite bool_decide_eq_false_2 by done. by rewrite IH.
Qed.

Lemma split_char_app (sep : code_point) (l r : str) :
  sep ∉ l → split_char sep (l ++ sep :: r) = l :: split_char sep r.
Proof.
  induction l as [|c l IH]; simpl.
  - intros _. by rewrite bool_decide_eq_true_2.
  - intros Hnotin. apply not_elem_of_cons in Hnotin as [Hne Hnotin].
    rewrite bool_decide_eq_false_2 by done. by rewrite IH.
Qed.

Lemma split_char_cons_inv (sep : code_point) (s piece : str) (pieces : list str) :
  split_char sep s = piece :: pieces →
  (sep ∉ piece)
  ∧ ((pieces = [] ∧ s = piece)
     ∨ ∃ r, s = piece ++ sep :: r ∧ split_char sep r = pieces).
Proof.
  revert piece pieces. induction s as [|c s IH]; intros piece pieces; simpl.
  - intros [= <- <-]. split; [apply not_elem_of_nil | by left].
  - case_bool_decide as Hc.
    + intros [= <- <-]. split; [apply not_elem_of_nil |].
      right. exists s. by rewrite Hc.
    + destruct (split_char sep s) as [|p ps] eqn:Hs;
        [by apply split_char_not_nil in Hs |].
      intros [= <- <-].
      destruct (IH p ps eq_refl) as [Hp Hrest]. split.
      * apply not_elem_of_cons. split; [congruence | done].
      * destruct Hrest as [[-> ->]|(r & -> & Hr)]; [by left |].
        right. by exists r.
Qed.

(** A name splits at its dots in two pieces exactly when it has one dot. *)
Lemma split_char_two (sep : code_point) (s label ext : str) :
  split_char sep s = [label; ext]
  ↔ s = label ++ sep :: ext ∧ (sep ∉ label) ∧ (sep ∉ ext).
Proof.
  split.
  - intros Hs. apply split_char_cons_inv in Hs as [Hl [[? _]|(r & -> & Hr)]];
      [done |].
    apply split_char_cons_inv in Hr as [He [[_ ->]|(r' & _ & Hr')]]; [done |].
    by apply split_char_not_nil in Hr'.
  - intros (-> & Hl & He). by rewrite split_char_app, split_char_no_sep.
Qed.

Lemma create_annotations_snoc (path_join : str → str → str)
    (listdir : list str) (file_name path_to_dataset : str) :
  create_annotations path_join (listdir ++ [file_name]) path_to_dataset
  = create_annotations path_join listdir path_to_dataset
    ++ (if bool_decide (length (split_char dot file_name) = 2)
        then [(path_join path_to_dataset file_name,
               default [] (split_char dot file_name !! 0))]
        else []).
Proof.
  unfold create_annotations. rewrite foldl_snoc.
  case_bool_decide; [done | by rewrite app_nil_r].
Qed.

End annotation_tools.

(** X20. [create_annotations] writes a row for a file exactly when its
    name has one dot; the label of the row is the part of the name before
    the dot, so a name with several dots or none is left out and a name
    that starts with its only dot gets the empty label. *)
Theorem create_annotations_rows (path_join : str → str → str)
    (listdir : list str) (path_to_dataset : str) (row : str * str) :
  row ∈ data.create_annotations path_join listdir path_to_dataset
  ↔ ∃ file_name label ext,
      file_name ∈ listdir
      ∧ file_name = label ++ data.dot :: ext
      ∧ (data.dot ∉ label) ∧ (data.dot ∉ ext)
      ∧ row = (path_join path_to_dataset file_name, label).
Proof.
  induction listdir as [|file_name listdir IH] using rev_ind.
  - split; [by intros ?%elem_of_nil |].
    by intros (? & ? & ? & ?%elem_of_nil & _).
  - rewrite create_annotations_snoc, elem_of_app, IH. split.
    + intros [(f & label & ext & Hf & Hrest)|Hrow].
      * exists f, label, ext. split; [apply elem_of_app; by left | done].
      * case_bool_decide as Hlen; [|by apply elem_of_nil in Hrow].
        apply list_elem_of_singleton in Hrow as ->.
        destruct (data.split_char data.dot file_name) as [|label [|ext [|? ?]]]
          eqn:Hsplit; try done.
        apply split_char_two in Hsplit as (Hname & Hl & He).
        exists file_name, label, ext.
        split; [apply elem_of_app; right; by left | done].
    + intros (f & label & ext & [Hf|Hf]%elem_of_app & Hname & Hl & He & ->).
      * left. by exists f, label, ext.
      * apply list_elem_of_singleton in Hf as ->. right.
        assert (data.split_char data.dot file_name = [label; ext]) as ->
          by by apply split_char_two.
        simpl. left.
Qed.

Lemma augmentation_loop_Ok (read_shape : str → option (nat * nat))
    (horizontal : nat → nat → bool) (annotations : list (str * str))
    (cur_num : nat) (rows : list data.augmented) :
  (∀ row, row ∈ annotations → is_Some (read_shape row.1)) →
  let kept := filter (λ row, data.kept read_shape horizontal row = true)
                annotations in
  data.augmentation_loop read_shape horizontal (cur_num, rows) annotations
  = Ok (cur_num + 2 * length kept,
        rows ++ mjoin (imap (λ k row,
                 [ {| data.aug_num := cur_num + 2 * k;
                      data.aug_source := row.1;
                      data.aug_rotated := false;
                      data.aug_target := row.2 |};
                   {| data.aug_num := cur_num + 2 * k + 1;
                      data.aug_source := row.1;
                      data.aug_rotated := true;
                      data.aug_target := reverse row.2 |} ]) kept)).
Proof.
  revert cur_num rows.
  induction annotations as [|row annotations IH]; intros cur_num rows Hread kept.
  - subst kept. simpl. by rewrite Nat.add_0_r, app_nil_r.
  - subst kept. simpl. unfold data.augmentation_step.
    destruct (Hread row) as [[h w] Hrow]; [left |]. rewrite Hrow.
    assert (∀ row', row' ∈ annotations → is_Some (read_shape row'.1)) as Hread'
      by (intros ? ?; apply Hread; by right).
    destruct (horizontal h w) eqn:Hhor; cbn [rbind].
    + rewrite filter_cons_True by (unfold data.kept; by rewrite Hrow).
      rewrite IH by done. f_equal. f_equal; [cbn [length]; lia |].
      rewrite <- app_assoc. f_equal. csimpl.
      rewrite Nat.add_0_r. do 3 f_equal.
      apply imap_ext. intros k row' _. unfold compose.
      replace (cur_num + 1 + 1 + (k + (k + 0))) with (cur_num + (S k + (S k + 0)))
        by lia.
      done.
    + rewrite filter_cons_False.
      * by rewrite IH.
      * unfold data.kept. rewrite Hrow. congruence.
Qed.

(** X21. [augmentation_data], when every image can be read, goes through
    and writes two files for each image that passes the test on its
    height and width and none for the others: the [k]-th such image (from
    0) gives the file numbered [2k+1], a copy with the same target, and
    the file numbered [2k+2], turned by 180 degrees with the target
    reversed. *)
Theorem augmentation_data_rows (read_shape : str → option (nat * nat))
    (horizontal : nat → nat → bool) (annotations : list (str * str)) :
  (∀ row, row ∈ annotations → is_Some (read_shape row.1)) →
  data.augmentation_data read_shape horizontal annotations
  = Ok (mjoin (imap (λ k row,
                 [ {| data.aug_num := 2 * k + 1;
                      data.aug_source := row.1;
                      data.aug_rotated := false;
                      data.aug_target := row.2 |};
                   {| data.aug_num := 2 * k + 2;
                      data.aug_source := row.1;
                      data.aug_rotated := true;
                      data.aug_target := reverse row.2 |} ])
               (filter (λ row, data.kept read_shape horizontal row = true)
                  annotations))).
Proof.
  intros Hread. unfold data.augmentation_data.
  rewrite (augmentation_loop_Ok read_shape horizontal annotations 1 [] Hread).
  cbn [rbind]. simpl. do 2 f_equal.
  apply imap_ext. intros k row _. simpl. repeat f_equal; lia.
Qed.

Lemma augmentation_data_rows_witness :
  data.augmentation_data (λ _, Some (50, 200)) (λ h w, h <? w)
    [(py "1.png", py "ab"); (py "2.png", py "cde")]
  = Ok [ {| data.aug_num := 1; data.aug_source := py "1.png";
            data.aug_rotated := false; data.aug_target := py "ab" |};
         {| data.aug_num := 2; data.aug_source := py "1.png";
            data.aug_rotated := true; data.aug_target := py "ba" |};
         {| data.aug_num := 3; data.aug_source := py "2.png";
            data.aug_rotated := false; data.aug_target := py "cde" |};
         {| data.aug_num := 4; data.aug_source := py "2.png";
            data.aug_rotated := true; data.aug_target := py "edc" |} ].
Proof.
  rewrite (augmentation_data_rows (λ _, Some (50, 200)) (λ h w, h <? w)
             [(py "1.png", py "ab"); (py "2.png", py "cde")]).
  - reflexivity.
  - intros row _. by eexists.
Defined.

(** ** More on the character error rate *)

Lemma lev_zero (x y : str) : torchmetrics.lev x y = 0 ↔ x = y.
Proof.
  split; [|intros ->; apply lev_refl].
  revert y. induction x as [|a x IH]; intros [|b y]; try done.
  rewrite lev_cons. case_bool_decide as Hab; [|done].
  intros H%IH. congruence.
Qed.

Lemma tensor_div_zero (errors total : nat) :
  tensor_div errors total = Finite 0 ↔ errors = 0 ∧ total ≠ 0.
Proof.
  unfold tensor_div. destruct total as [|n].
  { destruct errors; (split; [intros H; discriminate H | intros [? ?]; done]). }
  split.
  - intros [= H]. split; [|done].
    pose proof (Qred_correct (Z.of_nat errors # Pos.of_nat (S n))) as Heq.
    rewrite H in Heq. unfold Qeq in Heq. simpl in Heq. lia.
  - intros [-> _]. reflexivity.
Qed.

(** X22. The scorer gives 0 exactly when the prediction is not empty and
    equals the true string. *)
Theorem evaluations_cer_zero (t p : str) :
  OCR._evaluations_cer (torchmetrics.Str t) (torchmetrics.Str p) = Finite 0
  ↔ t = p ∧ p ≠ [].
Proof.
  unfold OCR._evaluations_cer. rewrite CharErrorRate_Str, tensor_div_zero.
  unfold torchmetrics._edit_distance. rewrite lev_zero. split.
  - intros [Heq Hlen]. split.
    + by rewrite <- (reverse_involutive t), Heq, reverse_involutive.
    + by intros ->.
  - intros [-> Hne]. split; [done |]. by destruct p.
Qed.

(** ** More on the calls of [create_loaders] *)

Lemma bound_app_Some (env env' : bindings) (name : string) (a : arg) :
  bound name env = Some a → bound name (env ++ env') = Some a.
Proof.
  induction env as [|[n x] env IH]; simpl; [done |].
  destruct (String.eqb n name); [done | apply IH].
Qed.

Lemma bound_app_None (env : bindings) (name : string) (a : arg) :
  bound name env = None → bound name (env ++ [(name, a)]) = Some a.
Proof.
  induction env as [|[n x] env IH]; simpl.
  - by rewrite String.eqb_refl.
  - destruct (String.eqb n name); [done | apply IH].
Qed.

Lemma bind_keywords_bound (sig : signature) (keywords : list (string * arg))
    (env env' : bindings) :
  bind_keywords sig keywords env = inr env' →
  (∀ name a, bound name env = Some a → bound name env' = Some a)
  ∧ (∀ name a, (name, a) ∈ keywords → bound name env' = Some a).
Proof.
  revert env. induction keywords as [|[n x] keywords IH]; intros env; simpl.
  - intros [= <-]. split; [done |]. by intros ? ? ?%elem_of_nil.
  - destruct (has_param sig n); [|done].
    destruct (bound n env) eqn:Hn; [done |].
    intros [Hkeep Hkw]%IH. split.
    + intros name a Hb. by apply Hkeep, bound_app_Some.
    + intros name a [[= -> ->]|Hin]%elem_of_cons; [|by apply Hkw].
      by apply Hkeep, bound_app_None.
Qed.

Lemma bind_defaults_bound (sig : signature) (env env' : bindings)
    (name : string) (a : arg) :
  bind_defaults sig env = inr env' → bound name env = Some a →
  bound name env' = Some a.
Proof.
  revert env. induction sig as [|[n d] sig IH]; intros env; simpl.
  - by intros [= <-].
  - destruct (bound n env) eqn:Hn.
    + apply IH.
    + destruct d as [d|]; [|done]. intros Hb Hname.
      eapply IH; [exact Hb |]. by apply bound_app_Some.
Qed.

(** X23. A [batch_size] passed to [create_loaders] by keyword reaches the
    loaders: whenever such a call binds, every loader it builds has that
    batch size.  [predict_pipeline] calls it so. *)
Theorem create_loaders_keyword_batch_size
    (train_test_split : arg → arg → arg → Z → split_result)
    (positional : list arg) (keywords : list (string * arg)) (b : arg)
    (ls : loaders) :
  ("batch_size", b) ∈ keywords →
  create_loaders train_test_split positional keywords = inr ls →
  Forall (λ dl, dl_batch_size dl = b) (loaders_list ls).
Proof.
  intros Hin. unfold create_loaders, bind_args.
  destruct (bind_positional _ _) as [?|env0]; [done |].
  destruct (bind_keywords _ _ _) as [?|env1] eqn:Hkw; [done |].
  destruct (bind_defaults _ _) as [?|env] eqn:Hdef; [done |].
  apply bind_keywords_bound in Hkw as [_ Hkw].
  pose proof (bind_defaults_bound _ _ _ _ _ Hdef (Hkw _ _ Hin)) as Hb.
  unfold create_loaders_body. rewrite Hb. cbn [default from_option].
  unfold id. destruct (truthy _).
  - destruct (new_DataLoader _ b true _) as [?|tr] eqn:Htr; [done |].
    destruct (new_DataLoader _ b false _) as [?|te] eqn:Hte; [done |].
    intros [= <-].
    apply new_DataLoader_inr in Htr as [-> _].
    apply new_DataLoader_inr in Hte as [-> _]. by repeat constructor.
  - destruct (new_DataLoader _ b false _) as [?|l] eqn:Hl; [done |].
    intros [= <-]. apply new_DataLoader_inr in Hl as [-> _].
    by repeat constructor.
Qed.

Lemma create_loaders_keyword_batch_size_witness :
  ∃ l, create_loaders example_split [APaths [py "1.png"]]
         [("transform", ATransform ["ToTensor"]); ("split", ABool false);
          ("batch_size", AInt 768)] = inr (Loader l)
    ∧ dl_batch_size l = AInt 768.
Proof.
  eexists. split; [reflexivity |].
  eapply (Forall_inv (create_loaders_keyword_batch_size example_split
            [APaths [py "1.png"]]
            [("transform", ATransform ["ToTensor"]); ("split", ABool false);
             ("batch_size", AInt 768)] (AInt 768) _ _ eq_refl)).
  Unshelve. simpl. right. right. left.
Defined.

(** ** From the annotation table to a batch *)

Lemma collate_fn_seq (b : list item) (out : tensor_batch) :
  collate_fn b = Ok out →
  ∃ ss, Forall2 (λ it s, item_seqs it = Some s) b ss
    ∧ tb_seq out = int_tensor (concat ss).
Proof.
  unfold collate_fn.
  destruct (collate_loop _ b) as [acc|e] eqn:Hloop; simpl; [|done].
  destruct (collate_loop_inv _ _ _ Hloop) as [ss HF].
  rewrite (collate_loop_Ok _ _ _ HF) in Hloop. injection Hloop as <-. simpl.
  destruct (torch_stack _) as [imgs|e]; simpl; [|done].
  intros [= <-]. by exists ss.
Qed.

(** No more distinct numbers below [n] than [n]. *)
Lemma NoDup_N_bounded (n : N) (l : list N) :
  NoDup l → (∀ x, x ∈ l → (x < n)%N) → (N.of_nat (length l) ≤ n)%N.
Proof.
  revert l. induction n as [|n IH] using N.peano_ind; intros l Hnd Hlt.
  - destruct l as [|x l]; [simpl; lia |]. specialize (Hlt x). 
    assert (x < 0)%N by (apply Hlt; left). lia.
  - destruct (decide (n ∈ l)) as [Hin|Hnin].
    + apply elem_of_Permutation in Hin as [l' Hl'].
      rewrite Hl' in Hnd. apply NoDup_cons in Hnd as [Hnotin Hnd].
      rewrite Hl'. cbn [length].
      assert (N.of_nat (length l') ≤ n)%N; [|lia].
      apply IH; [done |]. intros x Hx.
      assert (x < N.succ n)%N by (apply Hlt; rewrite Hl'; by right).
      assert (x ≠ n) by congruence. lia.
    + assert (N.of_nat (length l) ≤ n)%N; [|lia].
      apply IH; [done |]. intros x Hx.
      assert (x < N.succ n)%N by by apply Hlt.
      assert (x ≠ n) by congruence. lia.
Qed.

(** Python strings hold Unicode code points, of which there are 1114112:
    the indices of an alphabet of such characters are far below 2^24. *)
Lemma extract_data_unicode (annotations : list (str * str)) (e : extracted) :
  (∀ s c, s ∈ annotations.*2 → c ∈ s → (c ≤ 1114111)%N) →
  extract_data annotations BLANK = Ok e →
  (Z.of_nat (num_classes e) ≤ 1114113)%Z.
Proof.
  intros Huni He.
  destruct (extract_data_fresh annotations BLANK)
    as (e1 & flat & He1 & Hflat & Hnd & Hnum & _).
  { intros s c _ _. discriminate. }
  assert (e1 = e) as -> by congruence.
  rewrite Hnum, Hflat. cbn [length].
  set (v := sorted (elements (collect_tokens (chars_of <$> annotations.*2)))).
  assert (N.of_nat (length ((λ t : str, default 0%N (head t)) <$> v)) ≤ 1114112)%N
    as Hlen.
  { apply NoDup_N_bounded.
    - apply NoDup_fmap_2_strong; [|apply vocabulary_NoDup].
      intros t1 t2 (s1 & c1 & _ & _ & ->)%elem_of_vocabulary
                   (s2 & c2 & _ & _ & ->)%elem_of_vocabulary. simpl.
      by intros ->.
    - intros x (t & -> & (s & c & Hs & Hc & ->)%elem_of_vocabulary)%list_elem_of_fmap.
      simpl. specialize (Huni s c Hs Hc). lia. }
  rewrite length_fmap in Hlen. lia.
Qed.

Lemma extract_data_range (annotations : list (str * str)) (e : extracted) :
  extract_data annotations BLANK = Ok e →
  Forall (Forall (λ i, 1 ≤ i < num_classes e)) (targets_enc e).
Proof.
  intros He.
  destruct (extract_data_fresh annotations BLANK)
    as (e1 & flat & He1 & Hflat & Hnd & Hnum & Ht2i & _).
  { intros s c _ _. discriminate. }
  destruct (extract_data_Ok annotations BLANK) as (e2 & He2 & _ & _ & _ & _ & HF).
  assert (e1 = e) as -> by congruence. assert (e2 = e) as -> by congruence.
  eapply Forall2_Forall_r; [exact HF |]. apply Forall_forall.
  intros label _ enc Henc. simpl in Henc. apply mapR_inv in Henc.
  eapply Forall2_Forall_r; [exact Henc |]. apply Forall_forall.
  intros tok (c & -> & _)%list_elem_of_fmap i Hi. simpl in Hi.
  apply getitem_Ok, Ht2i in Hi. split.
  - destruct i as [|i]; [|lia]. rewrite Hflat in Hi. simpl in Hi. discriminate.
  - rewrite Hnum. by eapply lookup_lt_Some.
Qed.

(** X24. A batch that [collate_fn] builds from samples whose labels are
    encoded labels of [extract_data] holds, in its flat label tensor, the
    conversion of indices from 1 to [num_classes - 1]: never the blank
    index, which the alignment loss keeps for itself, and never an index
    without a class.  On labels of Unicode characters, as Python strings
    hold them, there are fewer than 2^24 classes, the conversion through
    float32 leaves every index as it is, and the tensor itself holds only
    indices from 1 to [num_classes - 1]. *)
Theorem batch_labels_in_range (annotations : list (str * str)) (e : extracted)
    (b : list item) (out : tensor_batch) :
  extract_data annotations BLANK = Ok e →
  (∀ it s, it ∈ b → item_seqs it = Some s → s ∈ targets_enc e) →
  collate_fn b = Ok out →
  ∃ ss, Forall2 (λ it s, item_seqs it = Some s) b ss
    ∧ Forall (λ i, 1 ≤ i < num_classes e) (concat ss)
    ∧ tb_seq out = int_tensor (concat ss)
    ∧ ((∀ s c, s ∈ annotations.*2 → c ∈ s → (c ≤ 1114111)%N) →
       tb_seq out = Z.of_nat <$> concat ss
       ∧ Forall (λ i, (1 ≤ i < Z.of_nat (num_classes e))%Z) (tb_seq out)).
Proof.
  intros He Hitems Hout.
  apply collate_fn_seq in Hout as (ss & HF & ->).
  pose proof (extract_data_range _ _ He) as Hrange.
  rewrite Forall_forall in Hrange.
  assert (Forall (λ i, 1 ≤ i < num_classes e) (concat ss)) as Hall.
  { apply Forall_forall. intros i (s & Hs & Hi)%elem_of_concat.
    apply list_elem_of_lookup in Hs as [k Hk].
    destruct (Forall2_lookup_r _ _ _ _ _ HF Hk) as (it & Hit & Hseq).
    assert (s ∈ targets_enc e) as Hin
      by (eapply Hitems; [by eapply list_elem_of_lookup_2 | done]).
    specialize (Hrange s Hin). rewrite Forall_forall in Hrange. by apply Hrange. }
  exists ss. split; [done |]. split; [done |]. split; [done |].
  intros Huni.
  pose proof (extract_data_unicode _ _ Huni He) as Hbound.
  rewrite int_tensor_exact.
  - split; [done |]. apply Forall_fmap.
    eapply Forall_impl; [exact Hall |]. intros i Hi.
    unfold compose. cbv beta in Hi |- *. lia.
  - eapply Forall_impl; [exact Hall |]. intros i Hi. cbv beta in Hi |- *. lia.
Qed.

Lemma batch_labels_in_range_witness :
  ∃ e out,
    extract_data [(py "1.png", py "cab"); (py "2.png", py "bd")] BLANK = Ok e
    ∧ collate_fn [ {| item_image := {| shape := [1; 50; 200] |};
                      item_img_name := py "1.png"; item_seqs := Some [3; 1; 2] |};
                   {| item_image := {| shape := [1; 50; 200] |};
                      item_img_name := py "2.png"; item_seqs := Some [2; 4] |} ]
       = Ok out
    ∧ Forall (λ i, (1 ≤ i < Z.of_nat (num_classes e))%Z) (tb_seq out).
Proof.
  destruct (extract_data _ BLANK) as [e|err] eqn:He;
    [|vm_compute in He; discriminate He].
  destruct (collate_fn _) as [out|err] eqn:Hout; [|discriminate Hout].
  exists e, out. split; [done |]. split; [done |].
  assert (targets_enc e = [[3; 1; 2]; [2; 4]]) as Henc.
  { vm_compute in He. by injection He as <-. }
  match type of Hout with
  | collate_fn ?b = _ =>
      assert (∀ it s, it ∈ b → item_seqs it = Some s → s ∈ targets_enc e)
        as Hitems
  end.
  { rewrite Henc. clear. intros it s Hit Hs.
    apply elem_of_cons in Hit as [->|Hit].
    { injection Hs as <-. left. }
    apply elem_of_cons in Hit as [->|Hit].
    { injection Hs as <-. right. left. }
    exfalso. exact (proj1 (elem_of_nil it) Hit). }
  destruct (batch_labels_in_range _ e _ out He Hitems Hout)
    as (ss & _ & _ & _ & Huni).
  apply Huni. clear. intros s c Hs Hc. simpl in Hs.
  assert (Forall (λ c, (c ≤ 1114111)%N) s) as Hall.
  { apply elem_of_cons in Hs as [->|Hs]; [by repeat constructor |].
    apply elem_of_cons in Hs as [->|Hs]; [by repeat constructor |].
    exfalso. exact (proj1 (elem_of_nil s) Hs). }
  rewrite Forall_forall in Hall. by apply Hall.
Defined.

(** X25. No run of the script [predict.py] ends normally, whatever its
    configuration and the files it reads hold.  On the sources as they
    are, it stops at its import of [OCR] from [src.model.model], a module
    that is not there, with [ModuleNotFoundError]; with the class [OCR] of
    [src/model.py] in its place, or any class without an attribute
    [predict], each run either fails at an earlier step or reaches the
    call of [predict] and fails there. *)
Theorem predict_pipeline_never_returns
    (train_test_split : arg → arg → arg → Z → split_result)
    (w : predict_world) (src_utils : bool) :
  (∃ name, predict_py src_utils (@None (OCR_class OCR.t)) train_test_split w
           = Raise (ModuleNotFoundError name))
  ∧ (∀ fresh_model fresh_optimizer,
       ∃ e, predict_py src_utils
              (Some (model_py_OCR fresh_model fresh_optimizer))
              train_test_split w = Raise e)
  ∧ (∀ obj (OCR : OCR_class obj),
       "predict" ∈ cls_attributes OCR
       ∨ ∃ e, predict_py src_utils (Some OCR) train_test_split w = Raise e).
Proof.
  split; [by eexists |]. split.
  - intros fm fo. apply predict_pipeline_raises, model_py_OCR_no_predict.
  - intros obj OCR. destruct (decide ("predict" ∈ cls_attributes OCR)) as [?|Hno].
    + by left.
    + right. by apply predict_pipeline_raises.
Qed.
